(** * An LRU cache with optional expiry: the Go package [lru] (src/unnamed/part_000,
    src/lru.go, src/scheduler.go), embedded over an explicit store of cache items.

    The Go code links its items with raw [prev]/[next] pointers and reaches them
    through a map.  The embedding keeps that shape: items live in an arena
    ([mem], addressed by [loc]), pointers are [option loc] with [None] for nil,
    and every Go statement that reads or writes through a pointer is one step of
    a small state-and-panic monad, so aliasing behaves as in the source. *)

From Stdlib Require Import ZArith Lia.
From stdpp Require Import gmap list.

Local Open Scope Z_scope.

(** ** Machine integers and time *)

(** Go's [int] is 64 bits wide on the supported targets; [l.length++] and
    [l.length--] wrap around. *)
Definition int_min : Z := - 2 ^ 63.
Definition int_max : Z := 2 ^ 63 - 1.
Definition int_wrap (z : Z) : Z := (z + 2 ^ 63) mod 2 ^ 64 - 2 ^ 63.
Definition int_range (z : Z) : bool := (int_min <=? z) && (z <=? int_max).

(** [time.Time] as an instant, counted in nanoseconds from the zero [Time]
    (the value of [var expiry time.Time]). *)
Definition Time : Type := Z.
Definition zeroTime : Time := 0.
Definition Before (t u : Time) : bool := bool_decide (t < u).
Definition Millisecond : Z := 1000000.
(** [time.Duration(ttl) * time.Millisecond], an int64 product. *)
Definition Duration_of_ms (ttl : Z) : Z := int_wrap (ttl * Millisecond).
Definition Add (t : Time) (d : Z) : Time := t + d.

(** Addresses of cache items. *)
Abbreviation loc := nat.

(** ** Outcomes of a Go call *)

Inductive result (A : Type) : Type :=
  | Ok (a : A)      (* the call returns *)
  | Panic           (* nil pointer dereference *)
  | OutOfFuel.      (* the loop bound given to the model was too small *)
Arguments Ok {A} a.
Arguments Panic {A}.
Arguments OutOfFuel {A}.

Section LRU.

Context {K : Type} `{Countable K} {V : Type}.
(** [var emptyVal V]: the zero value of the value type. *)
Variable emptyVal : V.

(** [type cache[K, V] struct]: one item. *)
Record cache : Type := mkCache {
  key : K;
  value : V;
  prev : option loc;
  next : option loc;
  ttl : option Time;       (* [*time.Time] *)
}.

(** [type lru[K, V] struct], together with the store holding its items. *)
Record lru : Type := mkLru {
  mem : list cache;            (* the items allocated so far, by address *)
  cacheMap : gmap K loc;       (* field [cache] *)
  size : Z;
  withExpiry : bool;
  head : option loc;
  tail : option loc;
  length : Z;
}.

Definition with_prev (p : option loc) (c : cache) : cache :=
  mkCache (key c) (value c) p (next c) (ttl c).
Definition with_next (p : option loc) (c : cache) : cache :=
  mkCache (key c) (value c) (prev c) p (ttl c).
Definition with_value (v : V) (c : cache) : cache :=
  mkCache (key c) v (prev c) (next c) (ttl c).
Definition with_ttl (t : option Time) (c : cache) : cache :=
  mkCache (key c) (value c) (prev c) (next c) t.

Definition with_mem (m : list cache) (l : lru) : lru :=
  mkLru m (cacheMap l) (size l) (withExpiry l) (head l) (tail l) (length l).
Definition with_cacheMap (m : gmap K loc) (l : lru) : lru :=
  mkLru (mem l) m (size l) (withExpiry l) (head l) (tail l) (length l).
Definition with_withExpiry (b : bool) (l : lru) : lru :=
  mkLru (mem l) (cacheMap l) (size l) b (head l) (tail l) (length l).
Definition with_head (p : option loc) (l : lru) : lru :=
  mkLru (mem l) (cacheMap l) (size l) (withExpiry l) p (tail l) (length l).
Definition with_tail (p : option loc) (l : lru) : lru :=
  mkLru (mem l) (cacheMap l) (size l) (withExpiry l) (head l) p (length l).
Definition with_length (n : Z) (l : lru) : lru :=
  mkLru (mem l) (cacheMap l) (size l) (withExpiry l) (head l) (tail l) n.

(** ** The monad of method bodies *)

Definition M (A : Type) : Type := lru → result (A * lru).

#[global] Instance M_ret : MRet M := λ A a l, Ok (a, l).
#[global] Instance M_bind : MBind M := λ A B f m l,
  match m l with
  | Ok (a, l') => f a l'
  | Panic => Panic
  | OutOfFuel => OutOfFuel
  end.

Definition panic {A} : M A := λ _, Panic.
Definition out_of_fuel {A} : M A := λ _, OutOfFuel.
(** Read a field of [l]; overwrite a field of [l]. *)
Definition get {A} (f : lru → A) : M A := λ l, Ok (f l, l).
Definition put (upd : lru → lru) : M unit := λ l, Ok (tt, upd l).
(** [p.f] as an expression: panics when [p] is nil. *)
Definition load {A} (p : option loc) (f : cache → A) : M A := λ l,
  match p with
  | None => Panic
  | Some a => match mem l !! a with Some c => Ok (f c, l) | None => Panic end
  end.
(** [p.f = x] as a statement: panics when [p] is nil. *)
Definition assign (p : option loc) (upd : cache → cache) : M unit := λ l,
  match p with
  | None => Panic
  | Some a =>
      match mem l !! a with
      | Some c => Ok (tt, with_mem (<[a := upd c]> (mem l)) l)
      | None => Panic
      end
  end.
(** [&cache[K, V]{...}]: a fresh item. *)
Definition alloc (c : cache) : M (option loc) := λ l,
  Ok (Some (Datatypes.length (mem l)), with_mem (mem l ++ [c]) l).

(** ** src/unnamed/part_000 *)

Definition Contains (k : K) (l : lru) : bool :=
  bool_decide (is_Some (cacheMap l !! k)).

Definition del (k : K) : M bool :=
  ok ← get (Contains k);
  if negb ok then mret false
  else
    c ← get (λ l, cacheMap l !! k);
    cp ← load c prev;
    alone ← (match cp with
             | None => cn ← load c next; mret (bool_decide (cn = None))
             | Some _ => mret false
             end);
    (if alone : bool then
       put (with_head None);;
       put (with_tail None)
     else
         cp ← load c prev;
         match cp with
         | None =>
             cn ← load c next;
             assign cn (with_prev None);;
             cn ← load c next;
             put (with_head cn)
         | Some _ =>
             cn ← load c next;
             match cn with
             | None =>
                 cp ← load c prev;
                 assign cp (with_next None);;
                 cp ← load c prev;
                 put (with_tail cp)
             | Some _ =>
                 cn ← load c next;
                 cp ← load c prev;
                 assign cn (with_prev cp);;
                 cp ← load c prev;
                 cn ← load c next;
                 assign cp (with_next cn)
             end
         end);;
    put (λ l, with_cacheMap (delete k (cacheMap l)) l);;
    put (λ l, with_length (int_wrap (length l - 1)) l);;
    mret true.

Definition set (k : K) (v : V) (expiry : Time) : M unit :=
  found ← get (λ l, cacheMap l !! k);
  match found with
  | Some a =>
      let c := Some a in
      hd ← get head;
      (if bool_decide (c ≠ hd) then
         cp ← load c prev;
         match cp with
         | None =>
             cn ← load c next;
             assign cn (with_prev None);;
             cn ← load c next;
             put (with_head cn)
         | Some _ =>
             cn ← load c next;
             match cn with
             | None =>
                 cp ← load c prev;
                 assign cp (with_next None);;
                 cp ← load c prev;
                 put (with_tail cp)
             | Some _ =>
                 cn ← load c next;
                 cp ← load c prev;
                 assign cn (with_prev cp);;
                 cp ← load c prev;
                 cn ← load c next;
                 assign cp (with_next cn)
             end
         end
       else mret tt);;
      assign c (with_prev None);;
      hd ← get head;
      assign c (with_next hd);;
      assign c (with_value v);;
      assign c (with_ttl (Some expiry));;
      put (with_head c);;
      put (λ l, with_cacheMap (<[k := a]> (cacheMap l)) l)
  | None =>
      len ← get length;
      sz ← get size;
      (if bool_decide (sz ≤ len) then
         tl ← get tail;
         tk ← load tl key;
         del tk;; mret tt
       else mret tt);;
      hd ← get head;
      c ← alloc (mkCache k v None hd (Some expiry));
      hd ← get head;
      (match hd with
       | None => put (with_tail c)
       | Some _ => assign hd (with_prev c)
       end);;
      put (with_head c);;
      put (λ l, with_cacheMap (match c with
                               | Some a => <[k := a]> (cacheMap l)
                               | None => cacheMap l
                               end) l);;
      put (λ l, with_length (int_wrap (length l + 1)) l)
  end.

(** The statements of [set] after the eviction (lines 107-117), on their own:
    they link a fresh item in at the head. *)
Definition set_insert (k : K) (v : V) (expiry : Time) : M unit :=
  hd ← get head;
  c ← alloc (mkCache k v None hd (Some expiry));
  hd ← get head;
  (match hd with
   | None => put (with_tail c)
   | Some _ => assign hd (with_prev c)
   end);;
  put (with_head c);;
  put (λ l, with_cacheMap (match c with
                           | Some a => <[k := a]> (cacheMap l)
                           | None => cacheMap l
                           end) l);;
  put (λ l, with_length (int_wrap (length l + 1)) l).

(** The eviction of [set] (lines 103-105), on its own. *)
Definition set_evict : M unit :=
  len ← get length;
  sz ← get size;
  if bool_decide (sz ≤ len) then
    tl ← get tail;
    tk ← load tl key;
    del tk;; mret tt
  else mret tt.

(** [Set]; the name is taken in Rocq, hence the underscore. *)
Definition Set_ (k : K) (v : V) : M unit :=
  let expiry := zeroTime in
  set k v expiry.

(** [SetWithExpiry], with the reading of [time.Now()] as an argument. *)
Definition SetWithExpiry (now : Time) (k : K) (v : V) (ttl_ms : Z) : M unit :=
  set k v (Add now (Duration_of_ms ttl_ms)).

Definition Get (k : K) : M (V * bool) :=
  found ← get (λ l, cacheMap l !! k);
  match found with
  | Some a =>
      let c := Some a in
      cp ← load c prev;
      match cp with
      | None => v ← load c value; mret (v, true)
      | Some _ =>
          cn ← load c next;
          match cn with
          | None =>
              cp ← load c prev;
              assign cp (with_next None);;
              cp ← load c prev;
              put (with_tail cp);;
              assign c (with_prev None);;
              hd ← get head;
              assign c (with_next hd);;
              hd ← get head;
              assign hd (with_prev c);;
              put (with_head c);;
              v ← load c value; mret (v, true)
          | Some _ =>
              cp ← load c prev;
              cn ← load c next;
              assign cp (with_next cn);;
              cn ← load c next;
              cp ← load c prev;
              assign cn (with_prev cp);;
              hd ← get head;
              assign c (with_next hd);;
              assign c (with_prev None);;
              put (with_head c);;
              v ← load c value; mret (v, true)
          end
      end
  | None => mret (emptyVal, false)
  end.

Definition Del (k : K) : M bool := del k.

(** ** src/lru.go *)

Definition New (sz : Z) : lru :=
  mkLru [] ∅ sz false None None 0.

(** ** src/scheduler.go *)

(** The [for h != nil] loop of the cleaner.  [clock i] is what the [i]-th call
    of [time.Now()] of this sweep returns. *)
Fixpoint sweep (fuel : nat) (clock : nat → Time) (i : nat) (h : option loc) : M unit :=
  match h with
  | None => mret tt
  | Some _ =>
      match fuel with
      | O => out_of_fuel
      | S fuel' =>
          t ← load h ttl;
          (match t with
           | None => panic
           | Some deadline =>
               if Before deadline (clock i)
               then hk ← load h key; del hk;; mret tt
               else mret tt
           end);;
          hn ← load h next;
          sweep fuel' clock (S i) hn
      end
  end.

(** [startCleaner] starts the goroutine only on a cache with expiry. *)
Definition startCleaner (l : lru) : bool := withExpiry l.

(** One firing of [ticker.C] in that goroutine. *)
Definition tick (fuel : nat) (clock : nat → Time) : M unit := λ l,
  if startCleaner l then (h ← get head; sweep fuel clock 0%nat h) l
  else Ok (tt, l).

Definition NewWithExpiry (sz : Z) : lru :=
  mkLru [] ∅ sz true None None 0.

(** ** Running a sequence of calls *)

Definition exec {A} (m : M A) (r : result lru) : result lru :=
  match r with
  | Ok l => match m l with
            | Ok (_, l') => Ok l'
            | Panic => Panic
            | OutOfFuel => OutOfFuel
            end
  | Panic => Panic
  | OutOfFuel => OutOfFuel
  end.

(** ** The data-model invariant of the recency list and the index *)

(** Follow [next] from [h] until nil. *)
Fixpoint walk (fuel : nat) (m : list cache) (h : option loc) : option (list loc) :=
  match h with
  | None => Some []
  | Some p =>
      match fuel with
      | O => None
      | S fuel' =>
          match m !! p with
          | Some c => cons p <$> walk fuel' m (next c)
          | None => None
          end
      end
  end.

(** The items from [head] to nil, most recently used first. *)
Definition order (l : lru) : list loc :=
  default [] (walk (S (Datatypes.length (mem l))) (mem l) (head l)).

Definition item_data (c : cache) : K * V * option Time := (key c, value c, ttl c).

(** The resident entries in recency order: key, value and deadline. *)
Definition entries (l : lru) : list (K * V * option Time) :=
  omap (λ p, item_data <$> mem l !! p) (order l).

Definition resident_keys (l : lru) : list K := (λ e, e.1.1) <$> entries l.

(** Every [prev] points at the item before. *)
Fixpoint back_ok (m : list cache) (pv : option loc) (ls : list loc) : bool :=
  match ls with
  | [] => true
  | p :: ls' =>
      match m !! p with
      | Some c => bool_decide (prev c = pv) && back_ok m (Some p) ls'
      | None => false
      end
  end.

(** A listed item is indexed under its own key and carries a deadline cell. *)
Definition item_ok (l : lru) (p : loc) : bool :=
  match mem l !! p with
  | Some c => bool_decide (cacheMap l !! key c = Some p) && bool_decide (is_Some (ttl c))
  | None => false
  end.

(** An index entry points at a listed item with that key. *)
Definition index_ok (l : lru) (ls : list loc) (kp : K * loc) : bool :=
  bool_decide (kp.2 ∈ ls) && bool_decide (key <$> mem l !! kp.2 = Some kp.1).

(** The invariant of the data model, as a check that can be run: the walk from
    [head] ends at nil without repeating an item, [prev] mirrors [next],
    [tail] is the last item, [length] counts the items, and the index and the
    list hold the same items. *)
Definition wf (l : lru) : bool :=
  match walk (S (Datatypes.length (mem l))) (mem l) (head l) with
  | None => false
  | Some ls =>
      bool_decide (NoDup ls)
      && back_ok (mem l) None ls
      && bool_decide (tail l = last ls)
      && bool_decide (length l = Z.of_nat (Datatypes.length ls))
      && forallb (item_ok l) ls
      && forallb (index_ok l ls) (map_to_list (cacheMap l))
      && int_range (size l)
      && (length l <=? int_max)
  end.

(** The same invariant as a relation between a state and the list of its items. *)
Definition first_or (d : option loc) (ls : list loc) : option loc :=
  match ls with [] => d | q :: _ => Some q end.
Definition last_or (d : option loc) (ls : list loc) : option loc :=
  match last ls with Some q => Some q | None => d end.

Fixpoint dlseg (m : list cache) (pv : option loc) (ls : list loc) (nx : option loc) : Prop :=
  match ls with
  | [] => True
  | p :: ls' =>
      ∃ c, m !! p = Some c ∧ prev c = pv ∧ next c = first_or nx ls'
           ∧ dlseg m (Some p) ls' nx
  end.

(** [h.ttl.Before(now)] on an entry of [entries]. *)
Definition expired (now : Time) (e : K * V * option Time) : bool :=
  match e.2 with
  | Some deadline => Before deadline now
  | None => false
  end.

(** The same test on the item at address [p] of a store. *)
Definition stale (m : list cache) (now : Time) (p : loc) : bool :=
  match item_data <$> m !! p with
  | Some e => expired now e
  | None => false
  end.

(** Two stores hold the same keys, values and deadlines at the same addresses
    (they may differ in [prev] and [next]). *)
Definition same_items (m m' : list cache) : Prop :=
  Datatypes.length m = Datatypes.length m'
  ∧ ∀ q, item_data <$> m !! q = item_data <$> m' !! q.

Record Inv (l : lru) (ls : list loc) : Prop := mkInv {
  inv_nodup : NoDup ls;
  inv_links : dlseg (mem l) None ls None;
  inv_head : head l = hd_error ls;
  inv_tail : tail l = last ls;
  inv_length : length l = Z.of_nat (Datatypes.length ls);
  inv_index : ∀ k p, cacheMap l !! k = Some p ↔ p ∈ ls ∧ key <$> mem l !! p = Some k;
  inv_ttl : ∀ p c, p ∈ ls → mem l !! p = Some c → is_Some (ttl c);
  inv_size : int_range (size l) = true;
  inv_length_max : length l ≤ int_max;
}.

End LRU.

(** ** Caches of integers, for the runs of the tests and of the examples *)

Abbreviation lruZ := (@lru Z _ _ Z).

(** The state a run ends in; the fresh cache when it does not end. *)
Definition final (r : result lruZ) : lruZ :=
  match r with Ok l => l | _ => New 0 end.

(** [Set(1,1); Set(2,2); Set(3,3)] on [New(3)], as in src/cache_test.go. *)
Definition cache123 : result lruZ :=
  exec (Set_ 3 3) (exec (Set_ 2 2) (exec (Set_ 1 1) (Ok (New 3)))).

(** The same three writes through [SetWithExpiry] at time 1000 on
    [NewWithExpiry(3)], with 20000 ms, 2000 ms and 2000 ms to live. *)
Definition ttl123 : result lruZ :=
  exec (SetWithExpiry 1000 3 3 2000)
    (exec (SetWithExpiry 1000 2 2 2000)
       (exec (SetWithExpiry 1000 1 1 20000) (Ok (NewWithExpiry 3)))).

(** [Set(1,1); Set(1,1); Set(2,2); Set(3,3)] on [New(1)]. *)
Definition overflow_run : result lruZ :=
  exec (Set_ 3 3) (exec (Set_ 2 2) (exec (Set_ 1 1) (exec (Set_ 1 1) (Ok (New 1))))).

(** [Set(1,1); Set(2,2); Set(1,7)] on [New(3)]: the last write is to the tail. *)
Definition retouch_tail_run : result lruZ :=
  exec (Set_ 1 7) (exec (Set_ 2 2) (exec (Set_ 1 1) (Ok (New 3)))).

(** [Set(1,1); Set(2,2); Set(2,5)] on [New(3)]: the last write is to the head. *)
Definition retouch_head_run : result lruZ :=
  exec (Set_ 2 5) (exec (Set_ 2 2) (exec (Set_ 1 1) (Ok (New 3)))).

(** [Set(1,1); Set(2,2); Set(3,3); Get(2); Set(4,4); Set(5,5)] on [New(3)],
    and then [Set(6,6)]. *)
Definition get_middle_run : result lruZ :=
  exec (Set_ 5 5) (exec (Set_ 4 4) (exec (Get 0 2) cache123)).
Definition wrong_victim_run : result lruZ :=
  exec (Set_ 6 6) get_middle_run.

(** [Get(2); Get(3)] after the three writes of [cache123]. *)
Definition get_twice_run : result lruZ :=
  exec (Get 0 3) (exec (Get 0 2) cache123).

(** [SetWithExpiry(1,1,2000)] twice, at time 1000, on [NewWithExpiry(3)]. *)
Definition refresh_head_run : result lruZ :=
  exec (SetWithExpiry 1000 1 1 2000)
    (exec (SetWithExpiry 1000 1 1 2000) (Ok (NewWithExpiry 3))).

(** [Set(1,1); Set(1,1)] on [New(3)]: key 1 is the only resident key. *)
Definition rewrite_sole_run : result lruZ :=
  exec (Set_ 1 1) (exec (Set_ 1 1) (Ok (New 3))).

(** [Get(2)] after the three writes of [ttl123]. *)
Definition get_stale_run : result lruZ :=
  exec (Get 0 2) ttl123.

(** [SetWithExpiry(1,1,20000); SetWithExpiry(2,2,2000); SetWithExpiry(1,1,20000)]
    at time 1000 on [NewWithExpiry(3)]: the last write refreshes the tail. *)
Definition refresh_tail_run : result lruZ :=
  exec (SetWithExpiry 1000 1 1 20000)
    (exec (SetWithExpiry 1000 2 2 2000)
       (exec (SetWithExpiry 1000 1 1 20000) (Ok (NewWithExpiry 3)))).

(** [Set(1,1); Set(2,2); Set(1,7); Del(2)] on the cache of [NewWithExpiry(3)]. *)
Definition plain_set_run : result lruZ :=
  exec (Del 2)
    (exec (Set_ 1 7) (exec (Set_ 2 2) (exec (Set_ 1 1) (Ok (NewWithExpiry 3))))).

(** [Set(1,1); Set(1,1)] on the cache of [NewWithExpiry(3)]. *)
Definition plain_set_head_run : result lruZ :=
  exec (Set_ 1 1) (exec (Set_ 1 1) (Ok (NewWithExpiry 3))).

(** ** Callers *)

Section Callers.

Context {K : Type} `{Countable K} {V : Type}.
Variable emptyVal : V.

(** [listAll] of src/cache_test.go: the map from key to value of the items
    met from [in] by [next].  The loop tests [h.next != nil] before the body,
    and the last item is written after the loop. *)
Fixpoint listAll_loop (fuel : nat) (h : option loc) (out : gmap K V)
  : M (K:=K) (V:=V) (gmap K V) :=
  hn ← load h next;
  match hn with
  | Some _ =>
      match fuel with
      | O => out_of_fuel
      | S fuel' =>
          hk ← load h key;
          hv ← load h value;
          hn ← load h next;
          listAll_loop fuel' hn (<[hk := hv]> out)
      end
  | None =>
      hk ← load h key;
      hv ← load h value;
      mret (<[hk := hv]> out)
  end.

Definition listAll (fuel : nat) (inp : option loc) : M (K:=K) (V:=V) (gmap K V) :=
  listAll_loop fuel inp ∅.

(** A call of the interface, or one firing of the cleaner at a given time. *)
Inductive call : Type :=
  | CSet (k : K) (v : V)
  | CSetWithExpiry (now : Time) (k : K) (v : V) (ttl_ms : Z)
  | CGet (k : K)
  | CDel (k : K)
  | CTick (t : Time).

Definition do_call (c : call) : M (K:=K) (V:=V) unit :=
  match c with
  | CSet k v => Set_ k v
  | CSetWithExpiry now k v ttl_ms => SetWithExpiry now k v ttl_ms
  | CGet k => Get emptyVal k;; mret tt
  | CDel k => Del k;; mret tt
  | CTick t => λ l, tick (Datatypes.length (mem l)) (λ _, t) l
  end.

(** The calls of a list, one after the other. *)
Fixpoint do_calls (cs : list call) (l : lru) : result (lru (K:=K) (V:=V)) :=
  match cs with
  | [] => Ok l
  | c :: cs' =>
      match do_call c l with
      | Ok (_, l') => do_calls cs' l'
      | Panic => Panic
      | OutOfFuel => OutOfFuel
      end
  end.

(** A call that writes only a key that is not resident and reads only a key
    that is not resident or is the first or the last of the recency list. *)
Definition gentle (c : call) (l : lru (K:=K) (V:=V)) : bool :=
  match c with
  | CSet k _ | CSetWithExpiry _ k _ _ => negb (Contains k l)
  | CGet k =>
      negb (Contains k l)
      || bool_decide (hd_error (resident_keys l) = Some k)
      || bool_decide (last (resident_keys l) = Some k)
  | CDel _ | CTick _ => true
  end.

(** Every call of the list is gentle in the state it is made in. *)
Fixpoint all_gentle (cs : list call) (l : lru) : bool :=
  match cs with
  | [] => true
  | c :: cs' =>
      gentle c l
      && match do_call c l with
         | Ok (_, l') => all_gentle cs' l'
         | _ => true
         end
  end.

End Callers.

(** ** src/unnamed/part_002: the package of the same name in directory lru/ *)

(** Its structs are those of the main package without the fields [ttl] and
    [withExpiry]; the embedding uses the same records and leaves the two
    fields at their zero values (nil and false), which this code neither
    reads nor writes.  Its lock is an [RWMutex], taken for reading. *)
Module Sub.
Section Sub.

Context {K : Type} `{Countable K} {V : Type}.
Variable emptyVal : V.

Definition New (sz : Z) : lru (K:=K) (V:=V) :=
  mkLru [] ∅ sz false None None 0.

Definition Contains (k : K) (l : lru (K:=K) (V:=V)) : bool :=
  bool_decide (is_Some (cacheMap l !! k)).

Definition del (k : K) : M (K:=K) (V:=V) bool :=
  ok ← get (Contains k);
  if negb ok then mret false
  else
    c ← get (λ l, cacheMap l !! k);
    cp ← load c prev;
    (match cp with
     | None =>
         cn ← load c next;
         assign cn (with_prev None);;
         cn ← load c next;
         put (with_head cn)
     | Some _ =>
         cn ← load c next;
         match cn with
         | None =>
             cp ← load c prev;
             assign cp (with_next None);;
             cp ← load c prev;
             put (with_tail cp)
         | Some _ =>
             cn ← load c next;
             cp ← load c prev;
             assign cn (with_prev cp);;
             cp ← load c prev;
             cn ← load c next;
             assign cp (with_next cn)
         end
     end);;
    put (λ l, with_cacheMap (delete k (cacheMap l)) l);;
    put (λ l, with_length (int_wrap (length l - 1)) l);;
    mret true.

Definition Set_ (k : K) (v : V) : M (K:=K) (V:=V) unit :=
  ok ← get (Contains k);
  if ok : bool then
    c ← get (λ l, cacheMap l !! k);
    cp ← load c prev;
    (match cp with
     | None =>
         cn ← load c next;
         assign cn (with_prev None);;
         cn ← load c next;
         put (with_head cn)
     | Some _ =>
         cn ← load c next;
         match cn with
         | None =>
             cp ← load c prev;
             assign cp (with_next None);;
             cp ← load c prev;
             put (with_tail cp)
         | Some _ =>
             cn ← load c next;
             cp ← load c prev;
             assign cn (with_prev cp);;
             cp ← load c prev;
             cn ← load c next;
             assign cp (with_next cn)
         end
     end);;
    assign c (with_prev None);;
    hd ← get head;
    assign c (with_next hd);;
    assign c (with_value v);;
    put (with_head c);;
    put (λ l, with_cacheMap (match c with
                             | Some a => <[k := a]> (cacheMap l)
                             | None => cacheMap l
                             end) l)
  else
    len ← get length;
    sz ← get size;
    (if bool_decide (sz ≤ len) then
       tl ← get tail;
       tk ← load tl key;
       del tk;; mret tt
     else mret tt);;
    hd ← get head;
    match hd with
    | None =>
        c ← alloc (mkCache k v None None None);
        put (with_head c);;
        put (with_tail c);;
        put (λ l, with_cacheMap (match c with
                                 | Some a => <[k := a]> (cacheMap l)
                                 | None => cacheMap l
                                 end) l);;
        put (λ l, with_length (int_wrap (length l + 1)) l)
    | Some _ =>
        hd ← get head;
        c ← alloc (mkCache k v None hd None);
        hd ← get head;
        assign hd (with_prev c);;
        put (with_head c);;
        put (λ l, with_cacheMap (match c with
                                 | Some a => <[k := a]> (cacheMap l)
                                 | None => cacheMap l
                                 end) l);;
        put (λ l, with_length (int_wrap (length l + 1)) l)
    end.

Definition Get (k : K) : M (K:=K) (V:=V) (V * bool) :=
  ok ← get (Contains k);
  if ok : bool then
    c ← get (λ l, cacheMap l !! k);
    cp ← load c prev;
    match cp with
    | None => v ← load c value; mret (v, true)
    | Some _ =>
        cn ← load c next;
        match cn with
        | None =>
            cp ← load c prev;
            assign cp (with_next None);;
            cp ← load c prev;
            put (with_tail cp);;
            assign c (with_prev None);;
            hd ← get head;
            assign c (with_next hd);;
            hd ← get head;
            assign hd (with_prev c);;
            put (with_head c);;
            v ← load c value; mret (v, true)
        | Some _ =>
            cp ← load c prev;
            cn ← load c next;
            assign cp (with_next cn);;
            cn ← load c next;
            cp ← load c prev;
            assign cn (with_prev cp);;
            hd ← get head;
            assign c (with_next hd);;
            assign c (with_prev None);;
            put (with_head c);;
            v ← load c value; mret (v, true)
        end
    end
  else mret (emptyVal, false).

Definition Del (k : K) : M (K:=K) (V:=V) bool := del k.

(** [ListAll]: the loop is the one of [listAll] in src/cache_test.go. *)
Definition ListAll (fuel : nat) : M (K:=K) (V:=V) (gmap K V) :=
  h ← get head;
  listAll_loop fuel h ∅.

End Sub.
End Sub.

(** [Set(1,1)] on [New(1)] of the package in lru/. *)
Definition sub_one : result lruZ :=
  exec (Sub.Set_ 1 1) (Ok (Sub.New 1)).

(** [Set(1,1); Set(2,2); Set(3,3)] on [New(3)] of the package in lru/, as in
    src/lru/lru_test.go. *)
Definition sub_123 : result lruZ :=
  exec (Sub.Set_ 3 3) (exec (Sub.Set_ 2 2) (exec (Sub.Set_ 1 1) (Ok (Sub.New 3)))).

(** * Properties *)

Lemma int_wrap_id (z : Z) : int_min ≤ z ≤ int_max → int_wrap z = z.
Proof.
  unfold int_min, int_max, int_wrap. intros Hz.
  rewrite Z.mod_small; lia.
Qed.

Lemma int_range_spec (z : Z) : int_range z = true ↔ int_min ≤ z ≤ int_max.
Proof. unfold int_range. rewrite andb_true_iff, !Z.leb_le. tauto. Qed.

Section Proofs.

Context {K : Type} `{Countable K} {V : Type}.
Variable emptyVal : V.

Abbreviation cacheT := (@cache K V).
Abbreviation lruT := (@lru K _ _ V).

Implicit Types (l : lruT) (m : list cacheT) (c : cacheT).
Implicit Types (ls : list loc) (p q : loc) (pv nx : option loc) (k : K) (v : V).

(** ** List segments *)

Lemma first_or_app d ls1 ls2 : first_or d (ls1 ++ ls2) = first_or (first_or d ls2) ls1.
Proof. by destruct ls1. Qed.

Lemma last_or_cons d p ls : last_or d (p :: ls) = last_or (Some p) ls.
Proof. unfold last_or. destruct ls as [|q ls]; [done|]. cbn. by destruct (last (q :: ls)) eqn:E; [|by apply last_None in E]. Qed.

Lemma last_or_snoc d ls q : last_or d (ls ++ [q]) = Some q.
Proof. unfold last_or. by rewrite last_snoc. Qed.

Lemma first_or_None ls : first_or None ls = hd_error ls.
Proof. by destruct ls. Qed.

Lemma last_or_None ls : last_or None ls = last ls.
Proof. unfold last_or. by destruct (last ls). Qed.

Lemma dlseg_app m pv ls1 ls2 nx :
  dlseg m pv (ls1 ++ ls2) nx ↔
  dlseg m pv ls1 (first_or nx ls2) ∧ dlseg m (last_or pv ls1) ls2 nx.
Proof.
  revert pv. induction ls1 as [|p ls1 IH]; intros pv; cbn [app dlseg].
  - unfold last_or. cbn. tauto.
  - rewrite last_or_cons, first_or_app. split.
    + intros (c & Hc & Hp & Hn & Hrest). apply IH in Hrest as [H1 H2].
      split; [|done]. by exists c.
    + intros [(c & Hc & Hp & Hn & H1) H2]. exists c. repeat split; try done.
      apply IH. done.
Qed.

Lemma dlseg_lookup m pv ls nx p : dlseg m pv ls nx → p ∈ ls → is_Some (m !! p).
Proof.
  revert pv. induction ls as [|q ls IH]; intros pv Hd Hin; [by apply elem_of_nil in Hin|].
  destruct Hd as (c & Hc & _ & _ & Hrest).
  apply elem_of_cons in Hin as [->|Hin]; [by exists c|by eapply IH].
Qed.

Lemma dlseg_insert_notin m pv ls nx q c :
  q ∉ ls → dlseg m pv ls nx → dlseg (<[q := c]> m) pv ls nx.
Proof.
  revert pv. induction ls as [|p ls IH]; intros pv Hq Hd; [done|].
  apply not_elem_of_cons in Hq as [Hne Hq].
  destruct Hd as (c' & Hc' & Hp & Hn & Hrest).
  exists c'. rewrite list_lookup_insert_ne by done. repeat split; try done.
  by apply IH.
Qed.

Lemma dlseg_set_first_prev m pv pv' q ls nx c :
  dlseg m pv (q :: ls) nx → q ∉ ls → m !! q = Some c →
  dlseg (<[q := with_prev pv' c]> m) pv' (q :: ls) nx.
Proof.
  intros (c' & Hc' & _ & Hn & Hrest) Hq Hc.
  assert (c' = c) as -> by congruence.
  exists (with_prev pv' c). rewrite list_lookup_insert_eq by by eapply lookup_lt_Some.
  repeat split; try done. by apply dlseg_insert_notin.
Qed.

Lemma dlseg_set_last_next m pv ls q nx nx' c :
  dlseg m pv (ls ++ [q]) nx → q ∉ ls → m !! q = Some c →
  dlseg (<[q := with_next nx' c]> m) pv (ls ++ [q]) nx'.
Proof.
  intros [H1 (c' & Hc' & Hp & _ & _)]%dlseg_app Hq Hc.
  assert (c' = c) as -> by congruence.
  apply dlseg_app. split; [by apply dlseg_insert_notin|].
  exists (with_next nx' c). rewrite list_lookup_insert_eq by by eapply lookup_lt_Some.
  done.
Qed.

(** ** The check [wf] establishes the invariant *)

Lemma walk_cons_inv fuel m h p ls :
  walk fuel m h = Some (p :: ls) →
  h = Some p ∧ ∃ fuel' c, fuel = S fuel' ∧ m !! p = Some c ∧ walk fuel' m (next c) = Some ls.
Proof.
  destruct fuel as [|fuel'], h as [a|]; try done. cbn.
  destruct (m !! a) as [c|] eqn:Hc; [|done].
  destruct (walk fuel' m (next c)) as [ls'|] eqn:Hw; [|done].
  cbn. intros [= -> ->]. split; [done|]. by exists fuel', c.
Qed.

Lemma walk_nil_inv fuel m h : walk fuel m h = Some [] → h = None.
Proof.
  destruct fuel as [|fuel'], h as [a|]; try done. cbn.
  destruct (m !! a) as [c|]; [|done]. by destruct (walk fuel' m (next c)).
Qed.

Lemma walk_head fuel m h ls : walk fuel m h = Some ls → h = hd_error ls.
Proof.
  destruct ls as [|p ls]; [apply walk_nil_inv|]. by intros [-> _]%walk_cons_inv.
Qed.

Lemma walk_dlseg fuel m h pv ls :
  walk fuel m h = Some ls → back_ok m pv ls = true → dlseg m pv ls None.
Proof.
  revert fuel h pv. induction ls as [|p ls IH]; intros fuel h pv Hw Hb; [done|].
  apply walk_cons_inv in Hw as (-> & fuel' & c & -> & Hc & Hw).
  cbn in Hb. rewrite Hc in Hb. apply andb_true_iff in Hb as [Hp Hb].
  apply bool_decide_eq_true in Hp.
  exists c. repeat split; try done.
  - rewrite first_or_None. by eapply walk_head.
  - by eapply IH.
Qed.

Lemma wf_order l :
  wf l = true → walk (S (Datatypes.length (mem l))) (mem l) (head l) = Some (order l).
Proof.
  unfold wf, order. by destruct (walk _ _ _).
Qed.

Lemma forallb_elem_of {A} (f : A → bool) (xs : list A) (x : A) :
  forallb f xs = true → x ∈ xs → f x = true.
Proof. rewrite forallb_forall. intros Hall Hx. by apply Hall, list_elem_of_In. Qed.

Lemma wf_Inv l : wf l = true → Inv l (order l).
Proof.
  intros Hwf. pose proof (wf_order l Hwf) as Hw.
  unfold wf in Hwf. rewrite Hw in Hwf. revert Hw Hwf.
  generalize (order l) as ls. intros ls Hw Hwf.
  repeat (apply andb_true_iff in Hwf as [Hwf ?]).
  repeat match goal with
         | Hb : bool_decide _ = true |- _ => apply bool_decide_eq_true in Hb
         end.
  constructor; try done.
  - by eapply walk_dlseg.
  - by eapply walk_head.
  - intros k p. split.
    + intros Hkp%elem_of_map_to_list.
      eapply forallb_elem_of in Hkp; [|done]. unfold index_ok in Hkp. cbn in Hkp.
      apply andb_true_iff in Hkp as [Ha%bool_decide_eq_true Hb%bool_decide_eq_true].
      done.
    + intros [Hin Hk]. eapply forallb_elem_of in Hin; [|done].
      unfold item_ok in Hin. destruct (mem l !! p) as [c|]; [|done].
      apply andb_true_iff in Hin as [Ha%bool_decide_eq_true _].
      cbn in Hk. congruence.
  - intros p c Hin Hc. eapply forallb_elem_of in Hin; [|done].
    unfold item_ok in Hin. rewrite Hc in Hin.
    by apply andb_true_iff in Hin as [_ Hb%bool_decide_eq_true].
  - by apply Z.leb_le.
Qed.

(** ** The invariant passes the check [wf] *)

Lemma NoDup_bounded_length ls (n : nat) :
  NoDup ls → (∀ p, p ∈ ls → (p < n)%nat) → (Datatypes.length ls ≤ n)%nat.
Proof.
  intros Hnd Hlt. assert (ls ⊆+ seq 0 n) as Hs.
  { apply NoDup_submseteq; [done|].
    intros p Hp. apply elem_of_seq. specialize (Hlt p Hp). lia. }
  apply submseteq_length in Hs. by rewrite length_seq in Hs.
Qed.

Lemma walk_complete fuel m pv ls :
  dlseg m pv ls None → (Datatypes.length ls ≤ fuel)%nat →
  walk fuel m (hd_error ls) = Some ls.
Proof.
  revert fuel pv. induction ls as [|p ls IH]; intros fuel pv Hd Hlen.
  - by destruct fuel.
  - destruct fuel as [|fuel']; [cbn in Hlen; lia|].
    destruct Hd as (c & Hc & _ & Hn & Hrest). cbn. rewrite Hc.
    rewrite Hn, first_or_None. erewrite IH; [done|done|]. cbn in Hlen. lia.
Qed.

Lemma dlseg_back_ok m pv ls nx : dlseg m pv ls nx → back_ok m pv ls = true.
Proof.
  revert pv. induction ls as [|p ls IH]; intros pv Hd; [done|].
  destruct Hd as (c & Hc & Hp & _ & Hrest). cbn. rewrite Hc.
  apply andb_true_iff. split; [by apply bool_decide_eq_true|by apply IH].
Qed.

Lemma Inv_walk l ls :
  Inv l ls → walk (S (Datatypes.length (mem l))) (mem l) (head l) = Some ls.
Proof.
  intros HI. rewrite (inv_head _ _ HI). eapply walk_complete; [apply HI|].
  apply Nat.le_le_succ_r, NoDup_bounded_length; [apply HI|].
  intros p Hp. destruct (dlseg_lookup _ _ _ _ p (inv_links _ _ HI) Hp) as [c Hc].
  by eapply lookup_lt_Some.
Qed.

Lemma Inv_order l ls : Inv l ls → order l = ls.
Proof. intros HI. unfold order. by rewrite (Inv_walk _ _ HI). Qed.

Lemma Inv_wf l ls : Inv l ls → wf l = true.
Proof.
  intros HI. unfold wf. rewrite (Inv_walk _ _ HI).
  destruct HI as [Hnd Hlk Hhd Htl Hlen Hidx Httl Hsz Hmax].
  repeat (apply andb_true_iff; split); try (by apply bool_decide_eq_true).
  - by eapply dlseg_back_ok.
  - apply forallb_forall. intros p Hp%list_elem_of_In.
    destruct (dlseg_lookup _ _ _ _ p Hlk Hp) as [c Hc].
    unfold item_ok. rewrite Hc. apply andb_true_iff.
    split; apply bool_decide_eq_true.
    + apply Hidx. by rewrite Hc.
    + by eapply Httl.
  - apply forallb_forall. intros [k p] Hkp%list_elem_of_In%elem_of_map_to_list.
    apply Hidx in Hkp as [Hin Hk]. unfold index_ok. cbn.
    apply andb_true_iff. split; by apply bool_decide_eq_true.
  - apply int_range_spec in Hsz. apply Z.leb_le. lia.
  - apply int_range_spec in Hsz. apply Z.leb_le. lia.
  - by apply Z.leb_le.
Qed.

Lemma wf_iff_Inv l : wf l = true ↔ ∃ ls, Inv l ls.
Proof.
  split; [intros Hwf; eexists; by apply wf_Inv|intros [ls HI]; by eapply Inv_wf].
Qed.

(** ** Stepping through a method body *)

Lemma bind_get {A B} (f : lruT → A) (g : A → M B) l : (get f ≫= g) l = g (f l) l.
Proof. done. Qed.

Lemma bind_put {B} (u : lruT → lruT) (g : unit → M B) l : (put u ≫= g) l = g tt (u l).
Proof. done. Qed.

Lemma bind_ret {A B} (a : A) (g : A → M B) l : (mret a ≫= g) l = g a l.
Proof. done. Qed.

Lemma bind_load {A B} (f : cacheT → A) (g : A → M B) l p c :
  mem l !! p = Some c → (load (Some p) f ≫= g) l = g (f c) l.
Proof. intros Hc. unfold mbind, M_bind, load. by rewrite Hc. Qed.

Lemma bind_assign {B} (u : cacheT → cacheT) (g : unit → M B) l p c :
  mem l !! p = Some c →
  (assign (Some p) u ≫= g) l = g tt (with_mem (<[p := u c]> (mem l)) l).
Proof. intros Hc. unfold mbind, M_bind, assign. by rewrite Hc. Qed.

Lemma bind_alloc {B} (c : cacheT) (g : option loc → M B) l :
  (alloc c ≫= g) l = g (Some (Datatypes.length (mem l))) (with_mem (mem l ++ [c]) l).
Proof. done. Qed.

Lemma bind_assoc {A B C} (x : M A) (f : A → M B) (g : B → M C) l :
  ((x ≫= f) ≫= g) l = (x ≫= (λ a, f a ≫= g)) l.
Proof.
  unfold mbind, M_bind. destruct (x l) as [[a l']| |]; done.
Qed.

(** ** Stores that differ in links only *)

Lemma same_items_refl m : same_items m m.
Proof. done. Qed.

Lemma same_items_trans m1 m2 m3 :
  same_items m1 m2 → same_items m2 m3 → same_items m1 m3.
Proof. intros [H1 H2] [H3 H4]. split; [congruence|]. intros q. by rewrite H2. Qed.

Lemma same_items_insert m p c c' :
  m !! p = Some c → item_data c' = item_data c → same_items m (<[p := c']> m).
Proof.
  intros Hc Hd. split; [by rewrite length_insert|]. intros q.
  destruct (decide (q = p)) as [->|Hne].
  - rewrite list_lookup_insert_eq by by eapply lookup_lt_Some. rewrite Hc. cbn. by rewrite Hd.
  - by rewrite list_lookup_insert_ne.
Qed.

Lemma same_items_key m m' q : same_items m m' → key <$> m' !! q = key <$> m !! q.
Proof.
  intros [_ Hs]. specialize (Hs q).
  destruct (m !! q), (m' !! q); cbn in *; unfold item_data in *; congruence.
Qed.

Lemma same_items_ttl m m' q c' :
  same_items m m' → m' !! q = Some c' → ∃ c, m !! q = Some c ∧ item_data c = item_data c'.
Proof.
  intros [_ Hs] Hc'. specialize (Hs q). rewrite Hc' in Hs.
  destruct (m !! q) as [c|]; [|done]. exists c. cbn in Hs. split; congruence.
Qed.

(** ** Removing an item *)

(** What is left to show once the links around the removed item are repaired. *)
Lemma Inv_unlink l l' ls1 p ls2 k :
  Inv l (ls1 ++ p :: ls2) → cacheMap l !! k = Some p →
  same_items (mem l) (mem l') →
  dlseg (mem l') None (ls1 ++ ls2) None →
  head l' = hd_error (ls1 ++ ls2) → tail l' = last (ls1 ++ ls2) →
  cacheMap l' = delete k (cacheMap l) →
  length l' = int_wrap (length l - 1) → size l' = size l →
  Inv l' (ls1 ++ ls2) ∧ length l' = length l - 1.
Proof.
  intros [Hnd Hlk Hhd Htl Hlen Hidx Httl Hsz Hmax] Hk Hsame Hlk' Hhd' Htl' Hmap' Hlen' Hsz'.
  assert (length l' = length l - 1) as Hlen''.
  { rewrite Hlen'. apply int_wrap_id. rewrite Hlen in Hmax |- *.
    rewrite length_app in Hmax |- *. cbn in Hmax |- *.
    unfold int_min, int_max in *. lia. }
  split; [|done].
  assert (p ∉ ls1 ++ ls2) as Hp.
  { apply NoDup_app in Hnd as (H1 & H2 & H3). apply NoDup_cons in H3 as [H3 H4].
    intros [Hin|Hin]%elem_of_app; [|done]. apply (H2 p Hin). by left. }
  assert (key <$> mem l !! p = Some k) as Hkp.
  { by apply Hidx in Hk as [_ ?]. }
  constructor; try done.
  - apply NoDup_app in Hnd as (H1 & H2 & H3). apply NoDup_cons in H3 as [H3 H4].
    apply NoDup_app. repeat split; try done.
    intros q Hq1 Hq2. apply (H2 q Hq1). by right.
  - rewrite Hlen'', Hlen, !length_app. cbn. lia.
  - intros k' q. rewrite Hmap', (same_items_key _ _ _ Hsame). split.
    + intros [Hne Hq]%lookup_delete_Some. apply Hidx in Hq as [Hin Hq]. split; [|done].
      apply elem_of_app in Hin as [Hin|Hin]; [apply elem_of_app; by left|].
      apply elem_of_cons in Hin as [->|Hin]; [congruence|apply elem_of_app; by right].
    + intros [Hin Hq]. apply lookup_delete_Some. split.
      * intros <-. assert (p = q); [|by subst].
        assert (cacheMap l !! k = Some q) as Hq'; [|congruence].
        apply Hidx. split; [|done].
        apply elem_of_app in Hin as [Hin|Hin]; apply elem_of_app; [by left|right; by right].
      * apply Hidx. split; [|done].
        apply elem_of_app in Hin as [Hin|Hin]; apply elem_of_app; [by left|right; by right].
  - intros q c' Hin Hc'. destruct (same_items_ttl _ _ _ _ Hsame Hc') as (c & Hc & Hd).
    assert (ttl c' = ttl c) as -> by (unfold item_data in Hd; congruence).
    eapply Httl; [|done].
    apply elem_of_app in Hin as [Hin|Hin]; apply elem_of_app; [by left|right; by right].
  - by rewrite Hsz'.
  - lia.
Qed.

Ltac msimpl :=
  cbn [mem cacheMap size withExpiry head tail length
       with_mem with_cacheMap with_head with_tail with_length with_withExpiry
       prev next key value ttl with_prev with_next with_value with_ttl].

Ltac lookup_solve :=
  msimpl; rewrite ?list_lookup_insert_ne by done;
  first [ eassumption
        | rewrite list_lookup_insert_eq
            by (rewrite ?length_insert; eapply lookup_lt_Some; eassumption);
          reflexivity ].

Ltac use_links :=
  repeat match goal with
         | Hp : prev ?c = _ |- context [prev ?c] => rewrite Hp
         | Hn : next ?c = _ |- context [next ?c] => rewrite Hn
         end.

Ltac mstep :=
  rewrite ?bind_assoc;
  first [ rewrite bind_get | rewrite bind_put | rewrite bind_ret | rewrite bind_alloc
        | erewrite bind_load by lookup_solve
        | erewrite bind_assign by lookup_solve ];
  msimpl; use_links.

Lemma lookup_Contains l k p : cacheMap l !! k = Some p → Contains k l = true.
Proof. intros Hk. unfold Contains. apply bool_decide_eq_true. by exists p. Qed.

Lemma del_finish l l' ls1 p ls2 k :
  Inv l (ls1 ++ p :: ls2) → cacheMap l !! k = Some p →
  same_items (mem l) (mem l') →
  dlseg (mem l') None (ls1 ++ ls2) None →
  head l' = hd_error (ls1 ++ ls2) → tail l' = last (ls1 ++ ls2) →
  cacheMap l' = delete k (cacheMap l) →
  length l' = int_wrap (length l - 1) → size l' = size l →
  mem l' !! p = mem l !! p → withExpiry l' = withExpiry l →
  Inv l' (ls1 ++ ls2) ∧ same_items (mem l) (mem l')
  ∧ mem l' !! p = mem l !! p ∧ size l' = size l ∧ withExpiry l' = withExpiry l
  ∧ cacheMap l' = delete k (cacheMap l) ∧ length l' = length l - 1.
Proof.
  intros HI Hk Hsame Hlk Hhd Htl Hmap Hlen Hsz Hp Hwe.
  edestruct (Inv_unlink l l') as [HI' Hlen']; try done.
Qed.

Lemma del_resident l ls1 p ls2 k :
  Inv l (ls1 ++ p :: ls2) → cacheMap l !! k = Some p →
  ∃ l', del k l = Ok (true, l') ∧ Inv l' (ls1 ++ ls2) ∧ same_items (mem l) (mem l')
        ∧ mem l' !! p = mem l !! p ∧ size l' = size l ∧ withExpiry l' = withExpiry l
        ∧ cacheMap l' = delete k (cacheMap l) ∧ length l' = length l - 1.
Proof.
  intros HI Hk. pose proof HI as [Hnd Hlk Hhd Htl Hlen Hidx Httl Hsz Hmax].
  apply dlseg_app in Hlk as [Hl1 Hl2]. rewrite last_or_None in Hl2.
  destruct Hl2 as (c & Hc & Hcp & Hcn & Hl2). rewrite first_or_None in Hcn.
  apply NoDup_app in Hnd as (Hnd1 & Hnd12 & Hnd2).
  apply NoDup_cons in Hnd2 as [Hp2 Hnd2].
  unfold del. mstep. rewrite (lookup_Contains _ _ _ Hk). cbn [negb].
  mstep. rewrite Hk. mstep.
  destruct ls1 as [|q1 ls1 _] using rev_ind; [destruct ls2 as [|q2 ls2]|].
  - cbn [last hd_error] in *. do 2 mstep. rewrite bool_decide_eq_true_2 by done.
    eexists. split; [reflexivity|].
    apply (del_finish l _ [] p [] k); msimpl; done.
  - cbn [last hd_error] in *. do 2 mstep. rewrite bool_decide_eq_false_2 by done.
    pose proof Hl2 as (c2 & Hc2 & Hc2p & Hc2n & Hl2').
    apply not_elem_of_cons in Hp2 as [Hpq2 Hp2].
    apply NoDup_cons in Hnd2 as [Hq2 Hnd2].
    do 4 mstep.
    eexists. split; [reflexivity|].
    apply (del_finish l _ [] p (q2 :: ls2) k); msimpl; try done.
    + by eapply same_items_insert.
    + by eapply dlseg_set_first_prev.
    + by rewrite list_lookup_insert_ne.
  - rewrite last_snoc in Hcp.
    pose proof Hl1 as [_ (c1 & Hc1 & Hc1p & Hc1n & _)]%dlseg_app.
    apply NoDup_app in Hnd1 as (Hnd1 & Hq1 & _).
    assert (q1 ∉ ls1) as Hq1'.
    { intros Hin. apply (Hq1 _ Hin). by left. }
    assert (q1 ∉ p :: ls2) as [Hq1p Hq1l2]%not_elem_of_cons.
    { apply Hnd12, elem_of_app. right. by left. }
    assert (hd_error ((ls1 ++ [q1]) ++ p :: ls2) = hd_error ((ls1 ++ [q1]) ++ ls2)) as Hhd'.
    { by destruct ls1. }
    rewrite last_snoc. do 3 mstep.
    destruct ls2 as [|q2 ls2].
    + cbn [hd_error] in *. do 4 mstep.
      eexists. split; [reflexivity|].
      apply (del_finish l _ (ls1 ++ [q1]) p [] k); msimpl; try done.
      * by eapply same_items_insert.
      * rewrite app_nil_r. by eapply dlseg_set_last_next.
      * congruence.
      * by rewrite app_nil_r, last_snoc.
      * by rewrite list_lookup_insert_ne.
    + cbn [hd_error] in *.
      pose proof Hl2 as (c2 & Hc2 & Hc2p & Hc2n & Hl2').
      apply not_elem_of_cons in Hp2 as [Hpq2 Hp2].
      apply not_elem_of_cons in Hq1l2 as [Hq1q2 Hq1l2].
      apply NoDup_cons in Hnd2 as [Hq2 Hnd2].
      assert (q2 ∉ ls1 ++ [q1]) as Hq2'.
      { intros Hin. apply (Hnd12 _ Hin). right. by left. }
      do 6 mstep.
      eexists. split; [reflexivity|].
      apply (del_finish l _ (ls1 ++ [q1]) p (q2 :: ls2) k); msimpl; try done.
      * apply (same_items_trans _ (<[q2:=with_prev (Some q1) c2]> (mem l)));
          [by eapply same_items_insert|].
        eapply same_items_insert; [by rewrite list_lookup_insert_ne|done].
      * apply dlseg_app. rewrite last_or_snoc. cbn [first_or]. split.
        -- eapply dlseg_set_last_next; [|done|by rewrite list_lookup_insert_ne].
           by apply dlseg_insert_notin.
        -- apply dlseg_insert_notin; [by apply not_elem_of_cons|].
           by eapply dlseg_set_first_prev.
      * congruence.
      * by rewrite Htl, !last_app_cons, last_cons_cons.
      * by rewrite !list_lookup_insert_ne.
Qed.

Lemma del_absent l k : cacheMap l !! k = None → del k l = Ok (false, l).
Proof.
  intros Hk. unfold del. mstep.
  assert (Contains k l = false) as ->; [|done].
  unfold Contains. apply bool_decide_eq_false. rewrite Hk. by intros [? ?].
Qed.

Lemma bind_ok {A B} (x : M A) (g : A → M B) l a l' :
  x l = Ok (a, l') → (x ≫= g) l = g a l'.
Proof. intros Hx. unfold mbind, M_bind. by rewrite Hx. Qed.

(** ** The sweep of the cleaner *)

Lemma Inv_item l ls1 p ls2 :
  Inv l (ls1 ++ p :: ls2) →
  ∃ c d, mem l !! p = Some c ∧ ttl c = Some d ∧ next c = hd_error ls2
         ∧ prev c = last ls1 ∧ cacheMap l !! key c = Some p.
Proof.
  intros HI. pose proof (inv_links _ _ HI) as [_ Hl2]%dlseg_app.
  destruct Hl2 as (c & Hc & Hcp & Hcn & _).
  rewrite first_or_None in Hcn. rewrite last_or_None in Hcp.
  assert (p ∈ ls1 ++ p :: ls2) as Hin by (apply elem_of_app; right; by left).
  destruct (inv_ttl _ _ HI p c Hin Hc) as [d Hd].
  exists c, d. repeat split; try done.
  apply (inv_index _ _ HI). by rewrite Hc.
Qed.

Lemma sweep_spec (m0 : list cacheT) (t : Time) rest :
  ∀ done l fuel i,
    same_items m0 (mem l) → Inv l (done ++ rest) →
    (Datatypes.length rest ≤ fuel)%nat →
    ∃ l', sweep fuel (λ _, t) i (hd_error rest) l = Ok (tt, l')
          ∧ Inv l' (done ++ List.filter (λ p, negb (stale m0 t p)) rest)
          ∧ same_items m0 (mem l')
          ∧ size l' = size l ∧ withExpiry l' = withExpiry l.
Proof.
  induction rest as [|p rest IH]; intros done l fuel i Hsame HI Hfuel.
  - exists l. by destruct fuel.
  - destruct fuel as [|fuel]; [cbn in Hfuel; lia|].
    destruct (Inv_item _ _ _ _ HI) as (c & d & Hc & Hd & Hcn & Hcp & Hk).
    assert (stale m0 t p = Before d t) as Hstale.
    { unfold stale. destruct Hsame as [_ Hs]. rewrite (Hs p), Hc. cbn.
      unfold expired, item_data. cbn. by rewrite Hd. }
    cbn [hd_error sweep List.filter]. rewrite Hstale. mstep. rewrite Hd.
    destruct (Before d t) eqn:Hexp; cbn [negb].
    + mstep.
      destruct (del_resident _ _ _ _ _ HI Hk)
        as (l1 & Hdel & HI1 & Hsame1 & Hp1 & Hsz1 & Hwe1 & _).
      rewrite bind_assoc, (bind_ok _ _ _ _ _ Hdel). mstep.
      rewrite Hc in Hp1. mstep.
      destruct (IH done l1 fuel (S i)) as (l' & Hrun & HI' & Hsame' & Hsz' & Hwe').
      { by eapply same_items_trans. }
      { done. }
      { cbn in Hfuel. lia. }
      exists l'. rewrite Hrun. do 3 (split; [done|]). split; congruence.
    + do 2 mstep.
      destruct (IH (done ++ [p]) l fuel (S i)) as (l' & Hrun & HI' & Hsame' & Hsz' & Hwe').
      { done. }
      { by rewrite <- app_assoc. }
      { cbn in Hfuel. lia. }
      exists l'. rewrite Hrun. rewrite <- app_assoc in HI'. done.
Qed.

(** ** The resident entries of a well-formed state *)

Lemma entries_Inv l ls :
  Inv l ls → entries l = omap (λ p, item_data <$> mem l !! p) ls.
Proof. intros HI. unfold entries. by rewrite (Inv_order _ _ HI). Qed.

Lemma omap_same_items m m' ls :
  same_items m m' →
  omap (λ p, item_data <$> m' !! p) ls = omap (λ p, item_data <$> m !! p) ls.
Proof.
  intros [_ Hs]. induction ls as [|p ls IH]; [done|].
  cbn. by rewrite (Hs p), IH.
Qed.

Lemma omap_filter_stale m t ls :
  omap (λ p, item_data <$> m !! p) (List.filter (λ p, negb (stale m t p)) ls)
  = List.filter (λ e, negb (expired t e)) (omap (λ p, item_data <$> m !! p) ls).
Proof.
  induction ls as [|p ls IH]; [done|].
  cbn. unfold stale at 1. destruct (m !! p) as [c|] eqn:Hc; cbn.
  - destruct (expired t (item_data c)); cbn; rewrite ?Hc; cbn; by rewrite IH.
  - rewrite Hc. cbn. by rewrite IH.
Qed.

Lemma elem_of_entries l ls e :
  Inv l ls → e ∈ entries l ↔ ∃ p c, p ∈ ls ∧ mem l !! p = Some c ∧ e = item_data c.
Proof.
  intros HI. rewrite (entries_Inv _ _ HI), list_elem_of_omap. split.
  - intros (p & Hp & He). destruct (mem l !! p) as [c|] eqn:Hc; [|done].
    exists p, c. cbn in He. split; [done|]. split; congruence.
  - intros (p & c & Hp & Hc & ->). exists p. by rewrite Hc.
Qed.

Lemma Contains_resident_keys l ls k :
  Inv l ls → Contains k l = true ↔ k ∈ resident_keys l.
Proof.
  intros HI. unfold Contains, resident_keys.
  rewrite bool_decide_eq_true, list_elem_of_fmap. split.
  - intros [p [Hin Hk]%(inv_index _ _ HI)].
    destruct (mem l !! p) as [c|] eqn:Hc; [|done].
    exists (item_data c). split; [cbn in *; congruence|].
    apply (elem_of_entries _ _ _ HI). by exists p, c.
  - intros (e & -> & (p & c & Hp & Hc & ->)%(elem_of_entries _ _ _ HI)).
    exists p. apply (inv_index _ _ HI). by rewrite Hc.
Qed.

Lemma resident_keys_NoDup l ls : Inv l ls → NoDup (resident_keys l).
Proof.
  intros HI. unfold resident_keys. rewrite (entries_Inv _ _ HI).
  assert (∀ p q, p ∈ ls → q ∈ ls → is_Some (mem l !! p) →
                 key <$> mem l !! p = key <$> mem l !! q → p = q) as Hinj.
  { intros p q Hp Hq [c Hc] Hpq. rewrite Hc in Hpq. cbn in Hpq.
    assert (cacheMap l !! key c = Some p) as H1.
    { apply (inv_index _ _ HI). by rewrite Hc. }
    assert (cacheMap l !! key c = Some q) as H2.
    { by apply (inv_index _ _ HI). }
    congruence. }
  pose proof (inv_nodup _ _ HI) as Hnd. clear HI.
  induction ls as [|p ls IH]; [constructor|].
  apply NoDup_cons in Hnd as [Hp Hnd]. cbn.
  destruct (mem l !! p) as [c|] eqn:Hc; cbn.
  - constructor.
    + intros (e & He & (q & Hq & Hqe)%list_elem_of_omap)%list_elem_of_fmap.
      assert (p = q); [|by subst].
      apply Hinj; [by left|by right|by rewrite Hc|].
      rewrite Hc. destruct (mem l !! q) as [c'|]; [|done].
      cbn in *. injection Hqe as <-. cbn in He. by rewrite He.
    + apply IH; [|done]. intros ? ? ? ?. apply Hinj; by right.
  - apply IH; [|done]. intros ? ? ? ?. apply Hinj; by right.
Qed.

Lemma NoDup_fmap_inj_on {A B} (f : A → B) (xs : list A) (x y : A) :
  NoDup (f <$> xs) → x ∈ xs → y ∈ xs → f x = f y → x = y.
Proof.
  induction xs as [|z xs IH]; [by intros _ ?%elem_of_nil|].
  cbn. intros [Hz Hnd]%NoDup_cons [->|Hx]%elem_of_cons [->|Hy]%elem_of_cons Hf; try done.
  - destruct Hz. rewrite Hf. by apply list_elem_of_fmap_2.
  - destruct Hz. rewrite <- Hf. by apply list_elem_of_fmap_2.
  - by apply IH.
Qed.

Lemma entries_length l ls : Inv l ls → Datatypes.length (entries l) = Datatypes.length ls.
Proof.
  intros HI. rewrite (entries_Inv _ _ HI).
  pose proof (λ p, dlseg_lookup _ _ _ _ p (inv_links _ _ HI)) as Hall. clear HI.
  induction ls as [|p ls IH]; [done|].
  cbn. destruct (Hall p) as [c Hc]; [by left|]. rewrite Hc. cbn.
  rewrite IH; [done|]. intros q Hq. apply Hall. by right.
Qed.

Lemma Contains_lookup l k : Contains k l = true → ∃ p, cacheMap l !! k = Some p.
Proof. unfold Contains. intros [p Hp]%bool_decide_eq_true. by exists p. Qed.

Lemma Contains_false_lookup l k : Contains k l = false → cacheMap l !! k = None.
Proof.
  unfold Contains. intros Hk%bool_decide_eq_false.
  destruct (cacheMap l !! k) eqn:E; [|done]. destruct Hk. by eexists.
Qed.

Lemma Inv_split l ls k p :
  Inv l ls → cacheMap l !! k = Some p → ∃ ls1 ls2, ls = ls1 ++ p :: ls2.
Proof.
  intros HI [Hin _]%(inv_index _ _ HI). by apply list_elem_of_split.
Qed.

(** ** Del *)

Lemma Del_spec l k :
  wf l = true →
  (Contains k l = true →
     ∃ l', Del k l = Ok (true, l')
           ∧ Contains k l' = false
           ∧ length l' = length l - 1
           ∧ wf l' = true
           ∧ (resident_keys l = [k] → head l' = None ∧ tail l' = None))
  ∧ (Contains k l = false → Del k l = Ok (false, l)).
Proof.
  intros HI%wf_Inv. split.
  - intros [p Hk]%Contains_lookup.
    destruct (Inv_split _ _ _ _ HI Hk) as (ls1 & ls2 & Hls). rewrite Hls in HI.
    destruct (del_resident _ _ _ _ _ HI Hk)
      as (l' & Hdel & HI' & _ & _ & _ & _ & Hmap & Hlen).
    exists l'. split; [done|]. split; [|split; [done|split; [by eapply Inv_wf|]]].
    + unfold Contains. apply bool_decide_eq_false. rewrite Hmap, lookup_delete_eq.
      by intros [? ?].
    + intros Hsole.
      apply (f_equal Datatypes.length) in Hsole.
      unfold resident_keys in Hsole.
      rewrite length_fmap, (entries_length _ _ HI), length_app in Hsole.
      cbn in Hsole. destruct ls1, ls2; cbn in Hsole; try lia.
      by rewrite (inv_head _ _ HI'), (inv_tail _ _ HI').
  - intros Hk%Contains_false_lookup. by apply del_absent.
Qed.

(** ** The cleaner *)

Lemma tick_spec l (t : Time) (fuel : nat) :
  wf l = true → withExpiry l = true →
  (Datatypes.length (entries l) ≤ fuel)%nat →
  ∃ l', tick fuel (λ _, t) l = Ok (tt, l')
        ∧ wf l' = true
        ∧ entries l' = List.filter (λ e, negb (expired t e)) (entries l)
        ∧ (∀ k v d, (k, v, Some d) ∈ entries l →
                    Contains k l' = negb (Before d t)).
Proof.
  intros HI%wf_Inv Hwe Hfuel. rewrite (entries_length _ _ HI) in Hfuel.
  destruct (sweep_spec (mem l) t (order l) [] l fuel 0%nat)
    as (l' & Hrun & HI' & Hsame & _ & _); [done|done|done|].
  cbn [app] in HI'.
  assert (entries l' = List.filter (λ e, negb (expired t e)) (entries l)) as Hent.
  { rewrite (entries_Inv _ _ HI'), (entries_Inv _ _ HI).
    rewrite (omap_same_items _ _ _ Hsame). apply omap_filter_stale. }
  exists l'. split; [|split; [by eapply Inv_wf|split; [done|]]].
  - unfold tick, startCleaner. rewrite Hwe. mstep. by rewrite (inv_head _ _ HI).
  - intros k v d Hin.
    destruct (Before d t) eqn:Hexp; cbn [negb].
    + apply not_true_is_false. intros Hk%(Contains_resident_keys _ _ _ HI').
      unfold resident_keys in Hk. apply list_elem_of_fmap in Hk as (e & -> & He).
      rewrite Hent in He. apply list_elem_of_In, filter_In in He as [He%list_elem_of_In Hne].
      pose proof (resident_keys_NoDup _ _ HI) as Hnd. unfold resident_keys in Hnd.
      assert (e = (e.1.1, v, Some d)) as Heq.
      { by eapply (NoDup_fmap_inj_on (λ e, e.1.1)). }
      rewrite Heq in Hne. unfold expired in Hne. cbn in Hne. by rewrite Hexp in Hne.
    + apply (Contains_resident_keys _ _ _ HI'). unfold resident_keys.
      apply list_elem_of_fmap. exists (k, v, Some d). split; [done|].
      rewrite Hent. apply list_elem_of_In, filter_In. split; [by apply list_elem_of_In|].
      unfold expired. cbn. by rewrite Hexp.
Qed.

(** ** set, for a key that is not resident *)

Lemma set_absent_unfold l k v (e : Time) :
  cacheMap l !! k = None → set k v e l = (set_evict;; set_insert k v e) l.
Proof.
  intros Hk. unfold set. mstep. rewrite Hk. unfold set_evict, set_insert.
  unfold mbind, M_bind, get. cbn. by destruct (bool_decide _).
Qed.

Lemma dlseg_app_mem m (x : list cacheT) pv ls nx :
  dlseg m pv ls nx → dlseg (m ++ x) pv ls nx.
Proof.
  revert pv. induction ls as [|p ls IH]; intros pv Hd; [done|].
  destruct Hd as (c & Hc & Hp & Hn & Hrest).
  exists c. repeat split; try done; [by apply lookup_app_l_Some|by apply IH].
Qed.

Lemma Inv_lt l ls p : Inv l ls → p ∈ ls → (p < Datatypes.length (mem l))%nat.
Proof.
  intros HI Hp. destruct (dlseg_lookup _ _ _ _ p (inv_links _ _ HI) Hp) as [c Hc].
  by eapply lookup_lt_Some.
Qed.

(** What is left to show once the fresh item is linked in. *)
Lemma Inv_push l l' ls k (n : loc) c :
  Inv l ls → cacheMap l !! k = None → n = Datatypes.length (mem l) →
  mem l' !! n = Some c → key c = k → is_Some (ttl c) →
  (∀ p, (p < n)%nat → item_data <$> mem l' !! p = item_data <$> mem l !! p) →
  dlseg (mem l') None (n :: ls) None →
  head l' = Some n → tail l' = last (n :: ls) →
  cacheMap l' = <[k := n]> (cacheMap l) →
  length l' = int_wrap (length l + 1) → length l < int_max → size l' = size l →
  Inv l' (n :: ls).
Proof.
  intros HI Hk Hn Hc Hkc Httlc Hold Hlk Hhd Htl Hmap Hlen Hlt Hsz.
  assert (∀ p, p ∈ ls → (p < n)%nat) as Hbound.
  { intros p Hp. rewrite Hn. by eapply Inv_lt. }
  assert (∀ p, p ∈ ls → key <$> mem l' !! p = key <$> mem l !! p) as Hkeys.
  { intros p Hp. specialize (Hold p (Hbound p Hp)).
    destruct (mem l' !! p), (mem l !! p); cbn in *; unfold item_data in *; congruence. }
  assert (n ∉ ls) as Hfresh.
  { intros Hin%Hbound. lia. }
  assert (length l' = length l + 1) as Hlen'.
  { rewrite Hlen. apply int_wrap_id. pose proof (inv_length _ _ HI).
    unfold int_min, int_max in *. lia. }
  destruct HI as [Hnd Hlk0 Hhd0 Htl0 Hlen0 Hidx Httl Hsz0 Hmax].
  constructor; try done.
  - by constructor.
  - rewrite Hlen', Hlen0. cbn [Datatypes.length]. lia.
  - intros k' q. rewrite Hmap. destruct (decide (k' = k)) as [->|Hne].
    + rewrite lookup_insert_eq. split.
      * intros [= <-]. split; [by left|]. by rewrite Hc, <- Hkc.
      * intros [[->|Hin]%elem_of_cons Hq]; [done|].
        rewrite (Hkeys _ Hin) in Hq.
        assert (cacheMap l !! k = Some q) as Hq' by (by apply Hidx). congruence.
    + rewrite lookup_insert_ne by done. rewrite Hidx. split.
      * intros [Hin Hq]. split; [by right|]. by rewrite (Hkeys _ Hin).
      * intros [[->|Hin]%elem_of_cons Hq].
        -- rewrite Hc in Hq. cbn in Hq. congruence.
        -- split; [done|]. by rewrite <- (Hkeys _ Hin).
  - intros q c' [->|Hin]%elem_of_cons Hc'; [congruence|].
    pose proof (Hold q (Hbound q Hin)) as Hq. rewrite Hc' in Hq.
    destruct (mem l !! q) as [c0|] eqn:Hc0; [|done].
    assert (ttl c' = ttl c0) as -> by (cbn in Hq; unfold item_data in Hq; congruence).
    by eapply Httl.
  - by rewrite Hsz.
  - lia.
Qed.

Lemma set_insert_spec l ls k v (e : Time) :
  Inv l ls → cacheMap l !! k = None → length l < int_max →
  ∃ l' c, set_insert k v e l = Ok (tt, l')
          ∧ Inv l' (Datatypes.length (mem l) :: ls)
          ∧ mem l' !! Datatypes.length (mem l) = Some c ∧ item_data c = (k, v, Some e)
          ∧ (∀ p, (p < Datatypes.length (mem l))%nat →
                  item_data <$> mem l' !! p = item_data <$> mem l !! p)
          ∧ size l' = size l ∧ withExpiry l' = withExpiry l.
Proof.
  intros HI Hk Hlt. unfold set_insert. do 3 mstep. rewrite (inv_head _ _ HI).
  set (n := Datatypes.length (mem l)).
  set (new := mkCache k v None (hd_error ls) (Some e)).
  assert ((mem l ++ [new]) !! n = Some new) as Hnew.
  { unfold n. by rewrite lookup_app_r, Nat.sub_diag. }
  destruct ls as [|h0 ls'].
  - cbn [hd_error]. do 3 mstep.
    eexists _, new. split; [reflexivity|]. msimpl.
    split; [|split; [done|split; [done|split; [|done]]]].
    + eapply (Inv_push l _ [] k n new); msimpl; try done.
      * intros p Hp. by rewrite lookup_app_l.
      * by exists new.
    + intros p Hp. by rewrite lookup_app_l.
  - cbn [hd_error].
    pose proof (inv_links _ _ HI) as (c0 & Hc0 & Hc0p & Hc0n & Hrest).
    assert ((mem l ++ [new]) !! h0 = Some c0) as Hc0' by (by apply lookup_app_l_Some).
    assert (h0 < n)%nat as Hh0 by (by eapply lookup_lt_Some).
    assert (h0 ≠ n) as Hne by lia.
    do 3 mstep.
    eexists _, new. split; [reflexivity|]. msimpl.
    assert (∀ p, (p < n)%nat →
      item_data <$> <[h0:=with_prev (Some n) c0]> (mem l ++ [new]) !! p
      = item_data <$> mem l !! p) as Hold.
    { intros p Hp. destruct (decide (p = h0)) as [->|Hp'].
      - rewrite list_lookup_insert_eq by by eapply lookup_lt_Some. by rewrite Hc0.
      - rewrite list_lookup_insert_ne by done. by rewrite lookup_app_l. }
    split; [|split; [by rewrite list_lookup_insert_ne|split; [done|split; [done|done]]]].
    eapply (Inv_push l _ (h0 :: ls') k n new); msimpl; try done.
    + by rewrite list_lookup_insert_ne.
    + exists new. rewrite list_lookup_insert_ne by done.
      repeat split; try done.
      eapply dlseg_set_first_prev; [|by apply NoDup_cons, (inv_nodup _ _ HI)|done].
      apply dlseg_app_mem, (inv_links _ _ HI).
    + by rewrite (inv_tail _ _ HI).
Qed.

Lemma set_evict_spec l ls :
  Inv l ls → 0 < size l →
  ∃ l1, set_evict l = Ok (tt, l1)
        ∧ Inv l1 (if bool_decide (size l ≤ length l) then removelast ls else ls)
        ∧ same_items (mem l) (mem l1)
        ∧ size l1 = size l ∧ withExpiry l1 = withExpiry l
        ∧ (∀ k, cacheMap l !! k = None → cacheMap l1 !! k = None)
        ∧ length l1 < int_max.
Proof.
  intros HI Hpos. unfold set_evict. do 2 mstep.
  destruct (bool_decide (size l ≤ length l)) eqn:Hfull.
  - apply bool_decide_eq_true in Hfull.
    destruct ls as [|q ls0 _] using rev_ind.
    { pose proof (inv_length _ _ HI) as Hlen. cbn in Hlen. lia. }
    mstep. rewrite (inv_tail _ _ HI), last_snoc.
    destruct (Inv_item _ _ _ _ HI) as (c & d & Hc & _ & _ & _ & Hk).
    mstep.
    destruct (del_resident _ _ _ _ _ HI Hk)
      as (l1 & Hdel & HI1 & Hsame1 & _ & Hsz1 & Hwe1 & Hmap1 & Hlen1).
    rewrite (bind_ok _ _ _ _ _ Hdel).
    rewrite app_nil_r in HI1. rewrite removelast_last.
    exists l1. do 5 (split; [done|]). split.
    + intros k Hnone. rewrite Hmap1. apply lookup_delete_None. by right.
    + pose proof (inv_length_max _ _ HI). lia.
  - apply bool_decide_eq_false in Hfull.
    exists l. do 6 (split; [done|]).
    pose proof (inv_size _ _ HI) as Hsz%int_range_spec. lia.
Qed.

Lemma omap_ext_in {A B} (f g : A → option B) (xs : list A) :
  (∀ x, x ∈ xs → f x = g x) → omap f xs = omap g xs.
Proof.
  induction xs as [|x xs IH]; intros Hfg; [done|].
  cbn. rewrite (Hfg x) by by left. rewrite IH; [done|].
  intros y Hy. apply Hfg. by right.
Qed.

Lemma omap_removelast l ls :
  Inv l ls →
  omap (λ p, item_data <$> mem l !! p) (removelast ls)
  = removelast (omap (λ p, item_data <$> mem l !! p) ls).
Proof.
  intros HI. destruct ls as [|q ls0 _] using rev_ind; [done|].
  destruct (Inv_item l ls0 q []) as (c & _ & Hc & _); [done|].
  rewrite removelast_last, omap_app. cbn. rewrite Hc. cbn.
  by rewrite removelast_last.
Qed.

(** [set] of a key that is not resident, on a well-formed cache of positive
    size: the tail is evicted first when the cache is full, then the new entry
    is put in front. *)
Lemma set_absent_spec l k v (e : Time) :
  wf l = true → 0 < size l → Contains k l = false →
  ∃ l', set k v e l = Ok (tt, l')
        ∧ wf l' = true
        ∧ entries l' = (k, v, Some e) ::
            (if bool_decide (size l ≤ length l) then removelast (entries l)
             else entries l)
        ∧ size l' = size l ∧ withExpiry l' = withExpiry l.
Proof.
  intros HI%wf_Inv Hpos Hk%Contains_false_lookup.
  revert HI. generalize (order l) as ls. intros ls HI.
  rewrite (set_absent_unfold _ _ _ _ Hk).
  destruct (set_evict_spec _ _ HI Hpos)
    as (l1 & Hev & HI1 & Hsame1 & Hsz1 & Hwe1 & Hnone1 & Hlt1).
  rewrite (bind_ok _ _ _ _ _ Hev).
  destruct (set_insert_spec l1 _ k v e HI1 (Hnone1 _ Hk) Hlt1)
    as (l' & c & Hins & HI' & Hc & Hdata & Hold & Hsz' & Hwe').
  exists l'. split; [done|]. split; [by eapply Inv_wf|].
  split; [|split; congruence].
  rewrite (entries_Inv _ _ HI'), (entries_Inv _ _ HI). cbn [omap list_omap].
  rewrite Hc. cbn. rewrite Hdata. f_equal.
  assert (∀ ls', Inv l1 ls' →
    omap (λ p, item_data <$> mem l' !! p) ls'
    = omap (λ p, item_data <$> mem l !! p) ls') as Hsameomap.
  { intros ls' HIls. apply omap_ext_in. intros p Hp.
    rewrite Hold by by eapply Inv_lt. destruct Hsame1 as [_ Hs]. by rewrite Hs. }
  rewrite (Hsameomap _ HI1).
  destruct (bool_decide (size l ≤ length l)); [|done].
  by apply omap_removelast.
Qed.

(** ** set, for a resident key *)

Lemma Inv_not_head l ls1 q1 p ls2 :
  Inv l ((ls1 ++ [q1]) ++ p :: ls2) → ∃ h0, head l = Some h0 ∧ h0 ≠ p ∧ h0 ∈ ls1 ++ [q1].
Proof.
  intros HI. rewrite (inv_head _ _ HI).
  pose proof (inv_nodup _ _ HI) as (_ & Hdisj & _)%NoDup_app.
  destruct ls1 as [|h0 ls1]; cbn.
  - exists q1. split; [done|]. split; [|by left].
    intros ->. apply (Hdisj p); by left.
  - exists h0. split; [done|]. split; [|by left].
    intros ->. apply (Hdisj p); by left.
Qed.

Lemma set_resident_spec l ls1 p ls2 k v (e : Time) :
  Inv l (ls1 ++ p :: ls2) → cacheMap l !! k = Some p →
  ∃ l' c', set k v e l = Ok (tt, l')
           ∧ head l' = Some p
           ∧ mem l' !! p = Some c' ∧ item_data c' = (k, v, Some e)
           ∧ prev c' = None
           ∧ next c' = head l
           ∧ cacheMap l' = cacheMap l ∧ length l' = length l
           ∧ size l' = size l ∧ withExpiry l' = withExpiry l.
Proof.
  intros HI Hk.
  destruct (Inv_item _ _ _ _ HI) as (c & d & Hc & Hd & Hcn & Hcp & Hkc).
  assert (key c = k) as Hkey.
  { apply (inv_index _ _ HI) in Hk as [_ Hk']. rewrite Hc in Hk'. cbn in Hk'. congruence. }
  assert (<[k:=p]> (cacheMap l) = cacheMap l) as Hid by (by apply insert_id).
  pose proof (inv_nodup _ _ HI) as (Hnd1 & Hnd12 & [Hp2 Hnd2]%NoDup_cons)%NoDup_app.
  unfold set. mstep. rewrite Hk. mstep.
  destruct ls1 as [|q1 ls1 _] using rev_ind.
  - assert (head l = Some p) as Hhd by (by rewrite (inv_head _ _ HI)).
    rewrite Hhd, bool_decide_eq_false_2 by (by intros ?).
    repeat mstep. rewrite ?Hhd.
    eexists _, _. split; [reflexivity|]. msimpl.
    split; [done|]. split; [lookup_solve|].
    unfold item_data. msimpl. by rewrite Hid, Hkey.
  - destruct (Inv_not_head _ _ _ _ _ HI) as (h0 & Hhd & Hh0 & _).
    rewrite Hhd, bool_decide_eq_true_2 by congruence.
    rewrite last_snoc in Hcp.
    pose proof (inv_links _ _ HI) as [[_ (c1 & Hc1 & _)]%dlseg_app _]%dlseg_app.
    assert (q1 ∉ p :: ls2) as [Hq1p Hq1l2]%not_elem_of_cons.
    { apply Hnd12, elem_of_app. right. by left. }
    do 2 mstep.
    destruct ls2 as [|q2 ls2]; cbn [hd_error] in Hcn |- *.
    + repeat mstep. rewrite ?Hhd.
      eexists _, _. split; [reflexivity|]. msimpl.
      split; [done|]. split; [lookup_solve|].
      unfold item_data. msimpl. by rewrite Hid, Hkey.
    + pose proof (inv_links _ _ HI) as [_ (_ & _ & _ & _ & (c2 & Hc2 & _))]%dlseg_app.
      apply not_elem_of_cons in Hp2 as [Hpq2 Hp2].
      apply not_elem_of_cons in Hq1l2 as [Hq1q2 Hq1l2].
      repeat mstep. rewrite ?Hhd.
      eexists _, _. split; [reflexivity|]. msimpl.
      split; [done|]. split; [lookup_solve|].
      unfold item_data. msimpl. by rewrite Hid, Hkey.
Qed.

(** ** Get *)

Ltac same_items_solve :=
  repeat match goal with
         | |- same_items ?m ?m => apply same_items_refl
         | |- same_items ?m (<[?a := ?x]> ?m1) =>
             apply (same_items_trans m m1);
             [|eapply same_items_insert; [lookup_solve|reflexivity]]
         end.

Lemma Get_resident_spec l ls1 p ls2 k c :
  Inv l (ls1 ++ p :: ls2) → cacheMap l !! k = Some p → mem l !! p = Some c →
  ∃ l', Get emptyVal k l = Ok ((value c, true), l')
        ∧ head l' = Some p
        ∧ cacheMap l' = cacheMap l ∧ length l' = length l
        ∧ same_items (mem l) (mem l')
        ∧ size l' = size l ∧ withExpiry l' = withExpiry l.
Proof.
  intros HI Hk Hc.
  destruct (Inv_item _ _ _ _ HI) as (c' & d & Hc' & Hd & Hcn & Hcp & Hkc).
  assert (c' = c) as -> by congruence. clear Hc'.
  pose proof (inv_nodup _ _ HI) as (Hnd1 & Hnd12 & [Hp2 Hnd2]%NoDup_cons)%NoDup_app.
  unfold Get. mstep. rewrite Hk. mstep.
  destruct ls1 as [|q1 ls1 _] using rev_ind.
  - cbn [last]. repeat mstep.
    exists l. split; [done|]. split; [by rewrite (inv_head _ _ HI)|]. done.
  - destruct (Inv_not_head _ _ _ _ _ HI) as (h0 & Hhd & Hh0 & Hh0in).
    destruct (dlseg_lookup _ _ _ _ h0 (inv_links _ _ HI)) as [ch0 Hch0].
    { apply elem_of_app. by left. }
    rewrite last_snoc in Hcp |- *.
    pose proof (inv_links _ _ HI) as [[_ (c1 & Hc1 & _)]%dlseg_app _]%dlseg_app.
    assert (q1 ∉ p :: ls2) as [Hq1p Hq1l2]%not_elem_of_cons.
    { apply Hnd12, elem_of_app. right. by left. }
    mstep.
    destruct ls2 as [|q2 ls2]; cbn [hd_error] in Hcn |- *.
    + do 8 mstep. rewrite Hhd.
      destruct (decide (h0 = q1)) as [->|Hh0q1].
      * repeat mstep.
        eexists. split; [reflexivity|]. msimpl.
        do 3 (split; [done|]). split; [same_items_solve|done].
      * repeat mstep.
        eexists. split; [reflexivity|]. msimpl.
        do 3 (split; [done|]). split; [same_items_solve|done].
    + pose proof (inv_links _ _ HI) as [_ (_ & _ & _ & _ & (c2 & Hc2 & _))]%dlseg_app.
      apply not_elem_of_cons in Hp2 as [Hpq2 Hp2].
      apply not_elem_of_cons in Hq1l2 as [Hq1q2 Hq1l2].
      repeat mstep.
      eexists. split; [reflexivity|]. msimpl.
      do 3 (split; [done|]). split; [same_items_solve|done].
Qed.

(** ** set, in both cases *)

Lemma set_spec l k v (e : Time) :
  wf l = true → 0 < size l →
  ∃ l' p c, set k v e l = Ok (tt, l')
            ∧ cacheMap l' !! k = Some p ∧ mem l' !! p = Some c
            ∧ item_data c = (k, v, Some e)
            ∧ head l' = Some p
            ∧ withExpiry l' = withExpiry l ∧ size l' = size l.
Proof.
  intros HI%wf_Inv Hpos. destruct (cacheMap l !! k) as [p|] eqn:Hk.
  - destruct (Inv_split _ _ _ _ HI Hk) as (ls1 & ls2 & Hls). rewrite Hls in HI.
    destruct (set_resident_spec _ _ _ _ _ v e HI Hk)
      as (l' & c' & Hset & Hhd & Hc' & Hdata & _ & _ & Hmap & _ & Hsz & Hwe).
    exists l', p, c'. rewrite Hmap. done.
  - rewrite (set_absent_unfold _ _ _ _ Hk).
    destruct (set_evict_spec _ _ HI Hpos)
      as (l1 & Hev & HI1 & Hsame1 & Hsz1 & Hwe1 & Hnone1 & Hlt1).
    rewrite (bind_ok _ _ _ _ _ Hev).
    destruct (set_insert_spec l1 _ k v e HI1 (Hnone1 _ Hk) Hlt1)
      as (l' & c & Hins & HI' & Hc & Hdata & Hold & Hsz' & Hwe').
    exists l', (Datatypes.length (mem l1)), c.
    split; [done|]. split; [|split; [done|split; [done|]]].
    + apply (inv_index _ _ HI'). split; [by left|]. rewrite Hc. cbn.
      unfold item_data in Hdata. congruence.
    + split; [by rewrite (inv_head _ _ HI')|]. split; congruence.
Qed.

(** ** The operations on well-formed states *)

(** On a well-formed state, [Del k] of a resident key returns true, leaves
    [k] absent and [length] smaller by exactly one (the state stays
    well-formed, and when [k] was the only resident key both [head] and [tail]
    are nil afterwards); [Del k] of an absent key returns false and leaves the
    state as it was. *)
Theorem Del_well_formed l k :
  wf l = true →
  (Contains k l = true →
     ∃ l', Del k l = Ok (true, l')
           ∧ Contains k l' = false
           ∧ length l' = length l - 1
           ∧ wf l' = true
           ∧ (resident_keys l = [k] → head l' = None ∧ tail l' = None))
  ∧ (Contains k l = false → Del k l = Ok (false, l)).
Proof. apply Del_spec. Qed.

(** C6, as amended: [New] and [NewWithExpiry] take any size; for a size that is
    not positive they hand back the empty cache of that size, and the failure
    comes with the first write: [Set] and [SetWithExpiry] panic on the nil
    [tail]. *)
Theorem C6_nonpositive_size_fails_at_first_write (sz : Z) k v (now : Time) (ttl_ms : Z) :
  sz ≤ 0 →
  (size (New sz : lruT) = sz ∧ length (New sz : lruT) = 0
   ∧ Contains k (New sz : lruT) = false
   ∧ Del k (New sz : lruT) = Ok (false, New sz))
  ∧ Set_ k v (New sz) = Panic
  ∧ SetWithExpiry now k v ttl_ms (NewWithExpiry sz) = Panic.
Proof.
  intros Hsz. split; [done|].
  unfold Set_, SetWithExpiry, set, New, NewWithExpiry.
  split; mstep; rewrite lookup_empty; do 2 mstep;
    by rewrite bool_decide_eq_true_2.
Qed.

(** C7, as amended: neither write looks at the mode of the cache.  On a
    well-formed cache of positive size, whatever [withExpiry] is set to, [Set]
    returns normally and leaves the key resident with the zero deadline, and
    [SetWithExpiry] returns normally and leaves it resident with the deadline
    [now + ttl]; neither reports anything and the mode is unchanged. *)
Theorem C7_writes_ignore_mode l (b : bool) k v (now : Time) (ttl_ms : Z) :
  wf l = true → 0 < size l →
  (∃ l' p c, Set_ k v (with_withExpiry b l) = Ok (tt, l')
             ∧ cacheMap l' !! k = Some p ∧ mem l' !! p = Some c
             ∧ item_data c = (k, v, Some zeroTime)
             ∧ withExpiry l' = b)
  ∧ (∃ l' p c, SetWithExpiry now k v ttl_ms (with_withExpiry b l) = Ok (tt, l')
               ∧ cacheMap l' !! k = Some p ∧ mem l' !! p = Some c
               ∧ item_data c = (k, v, Some (Add now (Duration_of_ms ttl_ms)))
               ∧ withExpiry l' = b).
Proof.
  intros Hwf Hpos.
  assert (wf (with_withExpiry b l) = true) as Hwf' by exact Hwf.
  split.
  - destruct (set_spec (with_withExpiry b l) k v zeroTime Hwf' Hpos)
      as (l' & p & c & Hset & Hk & Hc & Hdata & _ & Hwe & _).
    by exists l', p, c.
  - destruct (set_spec (with_withExpiry b l) k v
                (Add now (Duration_of_ms ttl_ms)) Hwf' Hpos)
      as (l' & p & c & Hset & Hk & Hc & Hdata & _ & Hwe & _).
    by exists l', p, c.
Qed.

(** On a well-formed cache with expiry, for a resident entry whose deadline
    is before [now], [Get] returns the stored value and true and leaves the
    entry's item at [head], and [Contains] answers true before and after:
    neither looks at the deadline. *)
Theorem lookups_ignore_expiry l k v (d now : Time) :
  wf l = true → withExpiry l = true →
  (k, v, Some d) ∈ entries l → Before d now = true →
  Contains k l = true
  ∧ ∃ l' p c, Get emptyVal k l = Ok ((v, true), l')
              ∧ head l' = Some p ∧ mem l' !! p = Some c
              ∧ item_data c = (k, v, Some d)
              ∧ Contains k l' = true.
Proof.
  intros HI%wf_Inv _ Hin _.
  apply (elem_of_entries _ _ _ HI) in Hin as (p & c & Hp & Hc & Hdata).
  assert (cacheMap l !! k = Some p) as Hk.
  { apply (inv_index _ _ HI). split; [done|]. rewrite Hc. cbn.
    unfold item_data in Hdata. congruence. }
  split; [by eapply lookup_Contains|].
  apply list_elem_of_split in Hp as (ls1 & ls2 & Hls). rewrite Hls in HI.
  destruct (Get_resident_spec _ _ _ _ _ _ HI Hk Hc)
    as (l' & HGet & Hhd & Hmap & _ & [_ Hsame] & _).
  specialize (Hsame p). rewrite Hc in Hsame.
  destruct (mem l' !! p) as [c'|] eqn:Hc'; [|done].
  exists l', p, c'. split.
  { rewrite HGet. unfold item_data in Hdata. by injection Hdata as _ <- _. }
  split; [done|]. split; [done|]. split.
  - cbn in Hsame. congruence.
  - eapply lookup_Contains. by rewrite Hmap.
Qed.

(** On a well-formed cache with expiry, one firing of the cleaner at time
    [t] returns, given fuel for every resident entry; it leaves a well-formed
    state whose entries are exactly the entries whose deadline is not before
    [t], with their values and in their order; so a resident key is resident
    afterwards exactly when its deadline is not before [t]. *)
Theorem tick_removes_expired l (t : Time) (fuel : nat) :
  wf l = true → withExpiry l = true →
  (Datatypes.length (entries l) ≤ fuel)%nat →
  ∃ l', tick fuel (λ _, t) l = Ok (tt, l')
        ∧ wf l' = true
        ∧ entries l' = List.filter (λ e, negb (expired t e)) (entries l)
        ∧ (∀ k v d, (k, v, Some d) ∈ entries l →
                    Contains k l' = negb (Before d t)).
Proof. apply tick_spec. Qed.

(** [Set] stores the zero deadline, the zero deadline is before every later
    time, and so on a well-formed cache with expiry the first firing of the
    cleaner removes an entry that [Set] has put in: the one it has just
    inserted, and any resident one that still carries the zero deadline. *)
Theorem Set_entries_swept l k v (now : Time) :
  wf l = true → withExpiry l = true → 0 < size l → zeroTime < now →
  Before zeroTime now = true
  ∧ (∃ l1 p c, Set_ k v l = Ok (tt, l1)
               ∧ cacheMap l1 !! k = Some p ∧ mem l1 !! p = Some c
               ∧ item_data c = (k, v, Some zeroTime))
  ∧ (Contains k l = false →
     ∃ l1 l2, Set_ k v l = Ok (tt, l1)
              ∧ (k, v, Some zeroTime) ∈ entries l1
              ∧ tick (S (Datatypes.length (entries l))) (λ _, now) l1 = Ok (tt, l2)
              ∧ Contains k l2 = false)
  ∧ ((k, v, Some zeroTime) ∈ entries l →
     ∃ l2, tick (Datatypes.length (entries l)) (λ _, now) l = Ok (tt, l2)
           ∧ Contains k l2 = false).
Proof.
  intros Hwf Hwe Hpos Hnow.
  assert (Before zeroTime now = true) as Hbefore.
  { unfold Before. by apply bool_decide_eq_true. }
  split; [done|]. split; [|split].
  - destruct (set_spec l k v zeroTime Hwf Hpos)
      as (l1 & p & c & Hset & Hk & Hc & Hdata & _).
    by exists l1, p, c.
  - intros Hk.
    destruct (set_absent_spec l k v zeroTime Hwf Hpos Hk)
      as (l1 & Hset & Hwf1 & Hent & _ & Hwe1).
    assert ((k, v, Some zeroTime) ∈ entries l1) as Hin by (rewrite Hent; by left).
    destruct (tick_spec l1 now (S (Datatypes.length (entries l))) Hwf1)
      as (l2 & Htick & _ & _ & Hres).
    { congruence. }
    { rewrite Hent. cbn [Datatypes.length]. apply le_n_S.
      generalize (entries l). intros es.
      destruct (bool_decide _); [|done].
      destruct es as [|e0 es _] using rev_ind; [done|].
      rewrite removelast_last, length_app. lia. }
    exists l1, l2. split; [done|]. split; [done|]. split; [done|].
    by rewrite (Hres _ _ _ Hin), Hbefore.
  - intros Hin.
    destruct (tick_spec l now (Datatypes.length (entries l)) Hwf Hwe)
      as (l2 & Htick & _ & _ & Hres); [done|].
    exists l2. split; [done|]. by rewrite (Hres _ _ _ Hin), Hbefore.
Qed.

(** * Further properties of the code *)

(** ** Writes and lookups together *)

Lemma wf_length l : wf l = true → length l = Z.of_nat (Datatypes.length (entries l)).
Proof.
  intros HI%wf_Inv. by rewrite (entries_length _ _ HI), (inv_length _ _ HI).
Qed.

Lemma Get_miss l k : cacheMap l !! k = None → Get emptyVal k l = Ok ((emptyVal, false), l).
Proof. intros Hk. unfold Get. mstep. by rewrite Hk. Qed.

Lemma Get_prev_nil l k p c :
  cacheMap l !! k = Some p → mem l !! p = Some c → prev c = None →
  Get emptyVal k l = Ok ((value c, true), l).
Proof. intros Hk Hc Hp. unfold Get. mstep. rewrite Hk. by do 2 mstep. Qed.

Lemma set_front l k v (e : Time) :
  wf l = true → 0 < size l →
  ∃ l' p c, set k v e l = Ok (tt, l')
            ∧ cacheMap l' !! k = Some p ∧ mem l' !! p = Some c
            ∧ item_data c = (k, v, Some e) ∧ prev c = None
            ∧ head l' = Some p.
Proof.
  intros HI%wf_Inv Hpos. destruct (cacheMap l !! k) as [p|] eqn:Hk.
  - destruct (Inv_split _ _ _ _ HI Hk) as (ls1 & ls2 & Hls). rewrite Hls in HI.
    destruct (set_resident_spec _ _ _ _ _ v e HI Hk)
      as (l' & c' & Hset & Hhd & Hc' & Hdata & Hprev & _ & Hmap & _).
    exists l', p, c'. by rewrite Hmap.
  - rewrite (set_absent_unfold _ _ _ _ Hk).
    destruct (set_evict_spec _ _ HI Hpos)
      as (l1 & Hev & HI1 & Hsame1 & Hsz1 & Hwe1 & Hnone1 & Hlt1).
    rewrite (bind_ok _ _ _ _ _ Hev).
    destruct (set_insert_spec l1 _ k v e HI1 (Hnone1 _ Hk) Hlt1)
      as (l' & c & Hins & HI' & Hc & Hdata & _).
    pose proof (inv_links _ _ HI') as (c0 & Hc0 & Hprev & _).
    assert (c0 = c) as -> by congruence.
    exists l', (Datatypes.length (mem l1)), c.
    split; [done|]. split; [|split; [done|split; [done|split; [done|]]]].
    + apply (inv_index _ _ HI'). split; [by left|]. rewrite Hc. cbn.
      unfold item_data in Hdata. congruence.
    + by rewrite (inv_head _ _ HI').
Qed.

(** X1: on a well-formed cache of positive size, a write returns and the
    [Get] of the same key right after it returns the value just written and
    true, and changes nothing; this holds for [Set] and for [SetWithExpiry],
    for a new key and for a resident one. *)
Theorem Set_then_Get l k v (now : Time) (ttl_ms : Z) :
  wf l = true → 0 < size l →
  (∃ l', Set_ k v l = Ok (tt, l')
         ∧ Contains k l' = true
         ∧ Get emptyVal k l' = Ok ((v, true), l'))
  ∧ (∃ l', SetWithExpiry now k v ttl_ms l = Ok (tt, l')
           ∧ Contains k l' = true
           ∧ Get emptyVal k l' = Ok ((v, true), l')).
Proof.
  intros Hwf Hpos.
  assert (∀ e : Time, ∃ l', set k v e l = Ok (tt, l')
            ∧ Contains k l' = true
            ∧ Get emptyVal k l' = Ok ((v, true), l')) as Hset.
  { intros e.
    destruct (set_front l k v e Hwf Hpos)
      as (l' & p & c & Hset & Hk & Hc & Hdata & Hprev & _).
    exists l'. split; [done|]. split; [by eapply lookup_Contains|].
    rewrite (Get_prev_nil _ _ _ _ Hk Hc Hprev).
    unfold item_data in Hdata. by injection Hdata as _ -> _. }
  split; apply Hset.
Qed.

Lemma set_new_key_aux l k v (e : Time) :
  wf l = true → 0 < size l → Contains k l = false →
  ∃ l', set k v e l = Ok (tt, l')
        ∧ wf l' = true
        ∧ entries l' = (k, v, Some e) ::
            (if bool_decide (size l ≤ length l) then removelast (entries l)
             else entries l)
        ∧ size l' = size l
        ∧ (length l ≤ size l → length l' ≤ size l').
Proof.
  intros Hwf Hpos Hk.
  destruct (set_absent_spec l k v e Hwf Hpos Hk) as (l' & Hset & Hwf' & Hent & Hsz & _).
  exists l'. do 4 (split; [done|]).
  rewrite (wf_length _ Hwf), (wf_length _ Hwf'), Hent, Hsz. cbn [Datatypes.length].
  pose proof (wf_length _ Hwf) as Hlen.
  generalize dependent (entries l). intros es _ Hlen Hle.
  destruct (bool_decide (size l ≤ length l)) eqn:Hfull.
  - apply bool_decide_eq_true in Hfull.
    destruct es as [|e0 es _] using rev_ind; [cbn in *; lia|].
    rewrite removelast_last. rewrite length_app in Hle. cbn in Hle. lia.
  - apply bool_decide_eq_false in Hfull. lia.
Qed.

(** X2: on a well-formed cache of positive size, the write of a key that is
    not resident returns and leaves a well-formed cache: the new entry is the
    first, and the entries that were there follow with their values and in
    their order, all of them when [length < size] and all but the last one
    when [length >= size]; [length] stays within [size] when it was. *)
Theorem set_new_key l k v (e : Time) :
  wf l = true → 0 < size l → Contains k l = false →
  ∃ l', set k v e l = Ok (tt, l')
        ∧ wf l' = true
        ∧ entries l' = (k, v, Some e) ::
            (if bool_decide (size l ≤ length l) then removelast (entries l)
             else entries l)
        ∧ size l' = size l
        ∧ (length l ≤ size l → length l' ≤ size l').
Proof. apply set_new_key_aux. Qed.

(** ** Del and Get, beyond what they return *)

Lemma Del_keeps_others_aux l k :
  wf l = true → Contains k l = true →
  ∃ l' es1 e es2,
    Del k l = Ok (true, l')
    ∧ entries l = es1 ++ e :: es2 ∧ e.1.1 = k
    ∧ entries l' = es1 ++ es2
    ∧ wf l' = true ∧ size l' = size l ∧ withExpiry l' = withExpiry l.
Proof.
  intros HI%wf_Inv [p Hk]%Contains_lookup.
  destruct (Inv_split _ _ _ _ HI Hk) as (ls1 & ls2 & Hls).
  revert HI. rewrite Hls. intros HI.
  destruct (del_resident _ _ _ _ _ HI Hk)
    as (l' & Hdel & HI' & Hsame & _ & Hsz & Hwe & _).
  destruct (Inv_item _ _ _ _ HI) as (c & d & Hc & _ & _ & _ & Hkc).
  assert (key c = k) as Hkey.
  { pose proof (proj1 (inv_index _ _ HI k p) Hk) as [_ Hk'].
    rewrite Hc in Hk'. cbn in Hk'. congruence. }
  set (f := λ q : loc, item_data <$> mem l !! q).
  exists l', (omap f ls1), (item_data c), (omap f ls2).
  split; [done|]. split; [|split; [done|split; [|split; [by eapply Inv_wf|done]]]].
  - rewrite (entries_Inv _ _ HI), omap_app. cbn. unfold f at 2. by rewrite Hc.
  - by rewrite (entries_Inv _ _ HI'), (omap_same_items _ _ _ Hsame), omap_app.
Qed.

(** X3: on a well-formed cache, [Del] of a resident key takes exactly the
    entry of that key out: the entries before it and after it stay, with their
    values, deadlines and order, and the cache stays well-formed with its
    [size] and mode. *)
Theorem Del_keeps_others l k :
  wf l = true → Contains k l = true →
  ∃ l' es1 e es2,
    Del k l = Ok (true, l')
    ∧ entries l = es1 ++ e :: es2 ∧ e.1.1 = k
    ∧ entries l' = es1 ++ es2
    ∧ wf l' = true ∧ size l' = size l ∧ withExpiry l' = withExpiry l.
Proof. apply Del_keeps_others_aux. Qed.

(** X4: on a well-formed cache, after [Del] of a resident key a [Get] of that
    key misses (zero value and false, nothing changed) and a second [Del]
    returns false. *)
Theorem Del_then_Get l k :
  wf l = true → Contains k l = true →
  ∃ l', Del k l = Ok (true, l')
        ∧ Get emptyVal k l' = Ok ((emptyVal, false), l')
        ∧ Del k l' = Ok (false, l').
Proof.
  intros Hwf Hk. destruct (Del_spec l k Hwf) as [Hres _].
  destruct (Hres Hk) as (l' & Hdel & Hgone%Contains_false_lookup & _).
  exists l'. split; [done|]. split; [by apply Get_miss|by apply del_absent].
Qed.

Lemma Get_only_relinks_aux l k :
  wf l = true →
  ∃ r l', Get emptyVal k l = Ok (r, l')
          ∧ r.2 = Contains k l
          ∧ (∀ v d, (k, v, d) ∈ entries l → r.1 = v)
          ∧ (Contains k l = false → r.1 = emptyVal ∧ l' = l)
          ∧ cacheMap l' = cacheMap l ∧ length l' = length l
          ∧ size l' = size l ∧ withExpiry l' = withExpiry l
          ∧ same_items (mem l) (mem l').
Proof.
  intros HI%wf_Inv. destruct (cacheMap l !! k) as [p|] eqn:Hk.
  - destruct (Inv_split _ _ _ _ HI Hk) as (ls1 & ls2 & Hls).
    pose proof HI as HI0. revert HI. rewrite Hls. intros HI.
    destruct (Inv_item _ _ _ _ HI) as (c & d & Hc & _).
    destruct (Get_resident_spec _ _ _ _ _ _ HI Hk Hc)
      as (l' & HGet & _ & Hmap & Hlen & Hsame & Hsz & Hwe).
    exists (value c, true), l'. split; [done|].
    split; [by rewrite (lookup_Contains _ _ _ Hk)|].
    split; [|split; [by rewrite (lookup_Contains _ _ _ Hk)|done]].
    intros v d' (q & c' & Hq & Hc' & Hdata)%(elem_of_entries _ _ _ HI0).
    assert (cacheMap l !! k = Some q) as Hq'.
    { apply (inv_index _ _ HI0). split; [done|]. rewrite Hc'. cbn.
      unfold item_data in Hdata. congruence. }
    assert (q = p) as -> by congruence.
    assert (c' = c) as -> by congruence.
    unfold item_data in Hdata. cbn. congruence.
  - exists (emptyVal, false), l. split; [by apply Get_miss|].
    assert (Contains k l = false) as Hc.
    { unfold Contains. apply bool_decide_eq_false. rewrite Hk. by intros [? ?]. }
    split; [done|]. split; [|done].
    intros v d (q & c' & Hq & Hc' & Hdata)%(elem_of_entries _ _ _ HI).
    assert (cacheMap l !! k = Some q) as Hq'; [|congruence].
    apply (inv_index _ _ HI). split; [done|]. rewrite Hc'. cbn.
    unfold item_data in Hdata. congruence.
Qed.

(** X5: on a well-formed cache, [Get] returns for every key, with the stored
    value and true for a resident key and with the zero value and false
    otherwise; it never changes the index, [length], [size], the mode, or the
    key, value or deadline of any item: it only relinks. *)
Theorem Get_only_relinks l k :
  wf l = true →
  ∃ r l', Get emptyVal k l = Ok (r, l')
          ∧ r.2 = Contains k l
          ∧ (∀ v d, (k, v, d) ∈ entries l → r.1 = v)
          ∧ (Contains k l = false → r.1 = emptyVal ∧ l' = l)
          ∧ cacheMap l' = cacheMap l ∧ length l' = length l
          ∧ size l' = size l ∧ withExpiry l' = withExpiry l
          ∧ same_items (mem l) (mem l').
Proof. apply Get_only_relinks_aux. Qed.

(** ** Get of the first and of the last entry *)

Lemma Inv_relink l l' ls ls' :
  Inv l ls → ls' ≡ₚ ls → same_items (mem l) (mem l') →
  dlseg (mem l') None ls' None →
  head l' = hd_error ls' → tail l' = last ls' →
  cacheMap l' = cacheMap l → length l' = length l → size l' = size l →
  Inv l' ls'.
Proof.
  intros [Hnd Hlk Hhd Htl Hlen Hidx Httl Hsz Hmax] Hperm Hsame Hlk' Hhd' Htl' Hmap Hlen' Hsz'.
  constructor; try done.
  - by rewrite Hperm.
  - by rewrite Hlen', Hlen, Hperm.
  - intros k q. rewrite Hmap, (same_items_key _ _ _ Hsame), Hidx.
    by rewrite Hperm.
  - intros q c' Hin Hc'. destruct (same_items_ttl _ _ _ _ Hsame Hc') as (c & Hc & Hd).
    assert (ttl c' = ttl c) as -> by (unfold item_data in Hd; congruence).
    eapply Httl; [|done]. by rewrite <- Hperm.
  - by rewrite Hsz'.
  - by rewrite Hlen'.
Qed.

Lemma Get_last_Inv l L p k c :
  L ≠ [] → Inv l (L ++ [p]) → cacheMap l !! k = Some p → mem l !! p = Some c →
  ∃ l', Get emptyVal k l = Ok ((value c, true), l')
        ∧ Inv l' (p :: L) ∧ same_items (mem l) (mem l').
Proof.
  intros HL HI Hk Hc.
  destruct L as [|q1 ls1 _] using rev_ind; [done|]. clear HL.
  destruct (Inv_item _ _ _ _ HI) as (c' & d & Hc' & Hd & Hcn & Hcp & Hkc).
  assert (c' = c) as -> by congruence. clear Hc'.
  rewrite last_snoc in Hcp. cbn [hd_error] in Hcn.
  pose proof (inv_nodup _ _ HI) as (Hnd1 & Hnd12 & _)%NoDup_app.
  pose proof (inv_links _ _ HI) as [Hl1 _]%dlseg_app. cbn [first_or] in Hl1.
  pose proof Hl1 as [_ (c1 & Hc1 & _)]%dlseg_app.
  assert (Permutation (p :: ls1 ++ [q1]) ((ls1 ++ [q1]) ++ [p])) as Hperm.
  { apply Permutation_cons_append. }
  assert (q1 ≠ p) as Hq1p.
  { intros ->. apply (Hnd12 p); [apply elem_of_app; right|]; by left. }
  assert (p ∉ ls1 ++ [q1]) as Hp.
  { intros Hin. apply (Hnd12 p Hin). by left. }
  apply NoDup_app in Hnd1 as (Hnd1 & Hq1 & _).
  assert (q1 ∉ ls1) as Hq1' by (intros Hin; apply (Hq1 _ Hin); by left).
  unfold Get. mstep. rewrite Hk. do 2 mstep.
  destruct ls1 as [|h0 ls1].
  - assert (head l = Some q1) as Hhd by (by rewrite (inv_head _ _ HI)).
    repeat mstep. rewrite Hhd. repeat mstep.
    eexists. split; [reflexivity|]. split; [|msimpl; same_items_solve].
    eapply (Inv_relink l); msimpl; try done; [same_items_solve|].
    exists (with_next (Some q1) (with_prev None c)).
    split; [by lookup_solve|]. split; [done|]. split; [done|].
    eapply dlseg_set_first_prev; [|by apply not_elem_of_nil|by lookup_solve].
    do 2 (apply dlseg_insert_notin; [done|]).
    by eapply (dlseg_set_last_next _ _ []).
  - assert (head l = Some h0) as Hhd by (by rewrite (inv_head _ _ HI)).
    pose proof Hl1 as (ch0 & Hch0 & _).
    assert (h0 ≠ p) as Hh0p.
    { intros ->. apply Hp. by left. }
    assert (h0 ≠ q1) as Hh0q1.
    { intros ->. apply Hq1'. by left. }
    apply NoDup_cons in Hnd1 as [Hh0 Hnd1].
    assert (h0 ∉ ls1 ++ [q1]) as Hh0'.
    { intros [Hin|Hin%list_elem_of_singleton]%elem_of_app; done. }
    repeat mstep. rewrite Hhd. repeat mstep.
    eexists. split; [reflexivity|]. split; [|msimpl; same_items_solve].
    eapply (Inv_relink l); msimpl; try done; [same_items_solve| |].
    + exists (with_next (Some h0) (with_prev None c)).
      split; [by lookup_solve|]. split; [done|]. split; [done|].
      eapply (dlseg_set_first_prev _ _ _ h0 (ls1 ++ [q1])); [|done|by lookup_solve].
      do 2 (apply dlseg_insert_notin; [done|]).
      by eapply (dlseg_set_last_next _ _ (h0 :: ls1)).
    + symmetry. apply (last_snoc q1 (p :: h0 :: ls1)).
Qed.

Lemma entries_Forall2 l ls :
  Inv l ls → Forall2 (λ p e, item_data <$> mem l !! p = Some e) ls (entries l).
Proof.
  intros HI. rewrite (entries_Inv _ _ HI).
  pose proof (λ p, dlseg_lookup _ _ _ _ p (inv_links _ _ HI)) as Hall. clear HI.
  induction ls as [|p ls IH]; [constructor|].
  cbn. destruct (Hall p) as [c Hc]; [by left|]. rewrite Hc. cbn.
  constructor; [by rewrite Hc|]. apply IH. intros q Hq. apply Hall. by right.
Qed.

Lemma Forall2_omap m ls (es : list (K * V * option Time)) :
  Forall2 (λ p e, item_data <$> m !! p = Some e) ls es →
  omap (λ p, item_data <$> m !! p) ls = es.
Proof.
  induction 1 as [|p e ls es Hp _ IH]; [done|]. cbn. by rewrite Hp, IH.
Qed.

Lemma entry_index l ls p k v (d : option Time) :
  Inv l ls → p ∈ ls → item_data <$> mem l !! p = Some (k, v, d) →
  ∃ c, cacheMap l !! k = Some p ∧ mem l !! p = Some c ∧ value c = v.
Proof.
  intros HI Hp Hdata. destruct (mem l !! p) as [c|] eqn:Hc; [|done].
  cbn in Hdata. unfold item_data in Hdata.
  exists c. split; [|split; [done|congruence]].
  apply (inv_index _ _ HI). split; [done|]. rewrite Hc. cbn. congruence.
Qed.

Lemma Get_first_aux l k v (d : option Time) :
  wf l = true → hd_error (entries l) = Some (k, v, d) →
  Get emptyVal k l = Ok ((v, true), l).
Proof.
  intros HI%wf_Inv Hhd. pose proof (entries_Forall2 _ _ HI) as Hall.
  destruct Hall as [|p e ls es Hp _]; [done|]. cbn in Hhd. injection Hhd as ->.
  destruct (entry_index _ _ _ _ _ _ HI ltac:(by left) Hp) as (c & Hk & Hc & <-).
  pose proof (inv_links _ _ HI) as (c0 & Hc0 & Hprev & _).
  assert (c0 = c) as -> by congruence.
  by apply (Get_prev_nil _ _ _ _ Hk Hc Hprev).
Qed.

(** X6: on a well-formed cache, [Get] of the key of the first entry returns
    its value and true and leaves the cache exactly as it was. *)
Theorem Get_first l k v (d : option Time) :
  wf l = true → hd_error (entries l) = Some (k, v, d) →
  Get emptyVal k l = Ok ((v, true), l).
Proof. apply Get_first_aux. Qed.

Lemma Get_last_aux l k v (d : option Time) (es : list (K * V * option Time)) :
  wf l = true → entries l = es ++ [(k, v, d)] →
  ∃ l', Get emptyVal k l = Ok ((v, true), l')
        ∧ wf l' = true
        ∧ entries l' = (k, v, d) :: es.
Proof.
  intros Hwf Hent. pose proof (wf_Inv _ Hwf) as HI.
  pose proof (entries_Forall2 _ _ HI) as Hall. rewrite Hent in Hall.
  apply Forall2_app_inv_r in Hall as (L & ps & HL & Hps & Hls).
  apply Forall2_cons_inv_r in Hps as (p & ps' & Hp & ->%Forall2_nil_inv_r & ->).
  revert HI. rewrite Hls. intros HI.
  destruct (entry_index _ _ _ _ _ _ HI ltac:(apply elem_of_app; right; by left) Hp)
    as (c & Hk & Hc & <-).
  destruct L as [|h0 L'] eqn:HLeq.
  - apply Forall2_nil_inv_l in HL as ->.
    exists l. split; [|by rewrite Hent].
    pose proof (inv_links _ _ HI) as (c0 & Hc0 & Hprev & _).
    assert (c0 = c) as -> by congruence.
    by apply (Get_prev_nil _ _ _ _ Hk Hc Hprev).
  - rewrite <- HLeq in *.
    destruct (Get_last_Inv l L p k c) as (l' & HGet & HI' & Hsame); try done.
    { by rewrite HLeq. }
    exists l'. split; [done|]. split; [by eapply Inv_wf|].
    rewrite (entries_Inv _ _ HI'), (omap_same_items _ _ _ Hsame). cbn.
    rewrite Hp. cbn. f_equal. by apply Forall2_omap.
Qed.

(** X7: on a well-formed cache, [Get] of the key of the last entry returns its
    value and true and makes that entry the first; the other entries follow in
    the order they had, and the cache stays well-formed. *)
Theorem Get_last l k v (d : option Time) (es : list (K * V * option Time)) :
  wf l = true → entries l = es ++ [(k, v, d)] →
  ∃ l', Get emptyVal k l = Ok ((v, true), l')
        ∧ wf l' = true
        ∧ entries l' = (k, v, d) :: es.
Proof. apply Get_last_aux. Qed.

(** ** Deadlines *)

Lemma Duration_of_ms_exact (ttl_ms : Z) :
  -9223372036854 ≤ ttl_ms ≤ 9223372036854 →
  Duration_of_ms ttl_ms = ttl_ms * 1000000.
Proof.
  intros Hr. unfold Duration_of_ms, Millisecond. apply int_wrap_id.
  unfold int_min, int_max. lia.
Qed.

Lemma Duration_of_ms_wraps (ttl_ms : Z) :
  9223372036855 ≤ ttl_ms ≤ 18446744073709 →
  Duration_of_ms ttl_ms = ttl_ms * 1000000 - 2 ^ 64.
Proof.
  intros Hr. unfold Duration_of_ms, Millisecond, int_wrap.
  rewrite <- (Z.mod_add _ (-1) (2 ^ 64)) by lia.
  rewrite Z.mod_small; lia.
Qed.

Lemma SetWithExpiry_tick l k v (now : Time) (ttl_ms : Z) (t : Time) :
  wf l = true → withExpiry l = true → 0 < size l → Contains k l = false →
  ∃ l1 l2, SetWithExpiry now k v ttl_ms l = Ok (tt, l1)
           ∧ hd_error (entries l1) = Some (k, v, Some (Add now (Duration_of_ms ttl_ms)))
           ∧ tick (S (Datatypes.length (entries l))) (λ _, t) l1 = Ok (tt, l2)
           ∧ Contains k l2 = negb (Before (Add now (Duration_of_ms ttl_ms)) t).
Proof.
  intros Hwf Hwe Hpos Hk. unfold SetWithExpiry.
  set (e := Add now (Duration_of_ms ttl_ms)).
  destruct (set_absent_spec l k v e Hwf Hpos Hk)
    as (l1 & Hset & Hwf1 & Hent & _ & Hwe1).
  assert ((k, v, Some e) ∈ entries l1) as Hin by (rewrite Hent; by left).
  destruct (tick_spec l1 t (S (Datatypes.length (entries l))) Hwf1)
    as (l2 & Htick & _ & _ & Hres).
  { congruence. }
  { rewrite Hent. cbn [Datatypes.length]. apply le_n_S.
    generalize (entries l). intros es.
    destruct (bool_decide _); [|done].
    destruct es as [|e0 es _] using rev_ind; [done|].
    rewrite removelast_last, length_app. lia. }
  exists l1, l2. split; [done|]. split; [by rewrite Hent|]. split; [done|].
  exact (Hres _ _ _ Hin).
Qed.

(** X8: on a well-formed cache with expiry and positive size, an entry put in
    by [SetWithExpiry] at time [now] with a time to live between
    -9223372036854 and 9223372036854 ms carries the deadline
    [now + ttl * 1000000]; the firing of the cleaner at time [t] that follows
    keeps it exactly when [t] is not after that deadline. *)
Theorem SetWithExpiry_then_tick l k v (now : Time) (ttl_ms : Z) (t : Time) :
  wf l = true → withExpiry l = true → 0 < size l → Contains k l = false →
  -9223372036854 ≤ ttl_ms ≤ 9223372036854 →
  ∃ l1 l2, SetWithExpiry now k v ttl_ms l = Ok (tt, l1)
           ∧ hd_error (entries l1) = Some (k, v, Some (now + ttl_ms * 1000000))
           ∧ tick (S (Datatypes.length (entries l))) (λ _, t) l1 = Ok (tt, l2)
           ∧ Contains k l2 = bool_decide (t ≤ now + ttl_ms * 1000000).
Proof.
  intros Hwf Hwe Hpos Hk Hr.
  destruct (SetWithExpiry_tick l k v now ttl_ms t Hwf Hwe Hpos Hk)
    as (l1 & l2 & Hset & Hhd & Htick & Hres).
  rewrite (Duration_of_ms_exact _ Hr) in Hhd, Hres. unfold Add in Hhd, Hres.
  exists l1, l2. do 3 (split; [done|]).
  rewrite Hres. unfold Before.
  destruct (decide (now + ttl_ms * 1000000 < t)).
  - rewrite bool_decide_eq_true_2 by done. cbn. symmetry. apply bool_decide_eq_false. lia.
  - rewrite bool_decide_eq_false_2 by done. cbn. symmetry. apply bool_decide_eq_true. lia.
Qed.

(** X9: the product [time.Duration(ttl) * time.Millisecond] wraps around: for
    a time to live between 9223372036855 and 18446744073709 ms the deadline
    stored by [SetWithExpiry] is before [now], and the firing of the cleaner
    at any time from [now] on removes the entry. *)
Theorem SetWithExpiry_ttl_overflow l k v (now : Time) (ttl_ms : Z) (t : Time) :
  wf l = true → withExpiry l = true → 0 < size l → Contains k l = false →
  9223372036855 ≤ ttl_ms ≤ 18446744073709 → now ≤ t →
  ∃ l1 l2 d, SetWithExpiry now k v ttl_ms l = Ok (tt, l1)
             ∧ hd_error (entries l1) = Some (k, v, Some d) ∧ d < now
             ∧ tick (S (Datatypes.length (entries l))) (λ _, t) l1 = Ok (tt, l2)
             ∧ Contains k l2 = false.
Proof.
  intros Hwf Hwe Hpos Hk Hr Ht.
  destruct (SetWithExpiry_tick l k v now ttl_ms t Hwf Hwe Hpos Hk)
    as (l1 & l2 & Hset & Hhd & Htick & Hres).
  pose proof (Duration_of_ms_wraps _ Hr) as Hd.
  assert (Add now (Duration_of_ms ttl_ms) < now) as Hlt.
  { unfold Add. rewrite Hd. lia. }
  exists l1, l2, (Add now (Duration_of_ms ttl_ms)). do 2 (split; [done|]).
  split; [done|]. split; [done|].
  rewrite Hres. unfold Before. rewrite bool_decide_eq_true_2; [done|lia].
Qed.

(** ** Sequences of calls that keep the invariant *)

Lemma tick_keeps l (t : Time) :
  wf l = true →
  ∃ l', tick (Datatypes.length (mem l)) (λ _, t) l = Ok (tt, l')
        ∧ wf l' = true ∧ size l' = size l
        ∧ length l' ≤ length l.
Proof.
  intros Hwf. pose proof (wf_Inv _ Hwf) as HI.
  unfold tick, startCleaner. destruct (withExpiry l) eqn:Hwe.
  - destruct (sweep_spec (mem l) t (order l) [] l (Datatypes.length (mem l)) 0%nat)
      as (l' & Hrun & HI' & Hsame & Hsz & _); [done|done| |].
    { apply NoDup_bounded_length; [apply HI|]. intros p Hp. by eapply Inv_lt. }
    cbn [app] in HI'.
    exists l'. split; [|split; [by eapply Inv_wf|split; [done|]]].
    + mstep. by rewrite (inv_head _ _ HI).
    + rewrite (inv_length _ _ HI'), (inv_length _ _ HI).
      apply inj_le. generalize (order l). intros ls.
      induction ls as [|p ls IH]; [done|]. cbn.
      destruct (negb _); cbn; lia.
  - exists l. split; [done|]. split; [done|]. split; [done|]. lia.
Qed.

Lemma gentle_step (c : call) l :
  wf l = true → 0 < size l → length l ≤ size l →
  gentle c l = true →
  ∃ l', do_call emptyVal c l = Ok (tt, l')
        ∧ wf l' = true ∧ size l' = size l ∧ length l' ≤ size l'.
Proof.
  intros Hwf Hpos Hcap Hg. destruct c as [k v|now k v ttl_ms|k|k|t]; cbn [gentle] in Hg.
  - apply negb_true_iff in Hg.
    destruct (set_new_key_aux l k v zeroTime Hwf Hpos Hg) as (l' & Hset & Hwf' & _ & Hsz & Hlen).
    exists l'. split; [done|]. split; [done|]. split; [done|]. by apply Hlen.
  - apply negb_true_iff in Hg.
    destruct (set_new_key_aux l k v (Add now (Duration_of_ms ttl_ms)) Hwf Hpos Hg)
      as (l' & Hset & Hwf' & _ & Hsz & Hlen).
    exists l'. split; [done|]. split; [done|]. split; [done|]. by apply Hlen.
  - destruct (Get_only_relinks_aux l k Hwf)
      as (r & l' & HGet & _ & _ & _ & _ & Hlen & Hsz & _).
    exists l'. split; [cbn; by rewrite (bind_ok _ _ _ _ _ HGet)|].
    split; [|split; [done|by rewrite Hlen, Hsz]].
    apply orb_true_iff in Hg as [[Hg|Hg]%orb_true_iff|Hg].
    + apply negb_true_iff, Contains_false_lookup in Hg.
      rewrite (Get_miss _ _ Hg) in HGet. by injection HGet as _ <-.
    + apply bool_decide_eq_true in Hg. unfold resident_keys in Hg.
      destruct (entries l) as [|[[k' v'] d'] es] eqn:Hent; cbn in Hg; [done|].
      injection Hg as ->.
      rewrite (Get_first_aux l k v' d' Hwf) in HGet by by rewrite Hent.
      by injection HGet as _ <-.
    + apply bool_decide_eq_true in Hg. unfold resident_keys in Hg.
      apply last_Some in Hg as [ks Hks].
      apply fmap_app_inv in Hks as (es & es' & Hes & Hes' & Hent).
      destruct es' as [|[[k' v'] d'] [|? ?]]; try done.
      cbn in Hes'. injection Hes' as <-.
      destruct (Get_last_aux l k v' d' es Hwf Hent) as (l'' & HGet' & Hwf'' & _).
      rewrite HGet' in HGet. by injection HGet as _ <-.
  - destruct (Contains k l) eqn:Hk.
    + destruct (Del_keeps_others_aux l k Hwf Hk)
        as (l' & es1 & e & es2 & Hdel & _ & _ & _ & Hwf' & Hsz & _).
      destruct (Del_spec l k Hwf) as [Hres _].
      destruct (Hres Hk) as (l'' & Hdel' & _ & Hlen & _).
      assert (l'' = l') as -> by congruence.
      exists l'. split; [cbn; unfold Del in Hdel; by rewrite (bind_ok _ _ _ _ _ Hdel)|].
      split; [done|]. split; [done|]. lia.
    + apply Contains_false_lookup in Hk.
      exists l. split; [cbn; unfold Del; by rewrite (bind_ok _ _ _ _ _ (del_absent _ _ Hk))|].
      done.
  - destruct (tick_keeps l t Hwf) as (l' & Htick & Hwf' & Hsz & Hlen).
    exists l'. split; [done|]. split; [done|]. split; [done|]. lia.
Qed.

(** X10: from a well-formed cache of positive size with [length <= size], a
    sequence of calls in which every write is of a key that is not resident
    at that moment and every [Get] is a miss or is of the first or the last
    key of the recency list (any [Del], any firing of the cleaner) returns
    normally, and the cache is well-formed with [length <= size] at its end
    (so after every call of the sequence). *)
Theorem gentle_calls_keep_invariant (cs : list call) l :
  wf l = true → 0 < size l → length l ≤ size l →
  all_gentle emptyVal cs l = true →
  ∃ l', do_calls emptyVal cs l = Ok l'
        ∧ wf l' = true ∧ size l' = size l ∧ length l' ≤ size l'.
Proof.
  revert l. induction cs as [|c cs IH]; intros l Hwf Hpos Hcap Hg.
  - by exists l.
  - cbn in Hg. apply andb_true_iff in Hg as [Hc Hrest].
    destruct (gentle_step c l Hwf Hpos Hcap Hc) as (l1 & Hcall & Hwf1 & Hsz1 & Hcap1).
    rewrite Hcall in Hrest. cbn [do_calls]. rewrite Hcall.
    destruct (IH l1 Hwf1 ltac:(lia) Hcap1 Hrest) as (l' & Hrun & Hwf' & Hsz' & Hcap').
    exists l'. split; [done|]. split; [done|]. split; [congruence|done].
Qed.

(** ** Where the links are left broken *)

Lemma Inv_head_links l ls p c h ch :
  Inv l ls → head l = Some p → mem l !! p = Some c → next c = Some h →
  mem l !! h = Some ch → prev ch = Some p ∧ h ≠ p.
Proof.
  intros HI Hhd Hc Hn Hch. rewrite (inv_head _ _ HI) in Hhd.
  destruct ls as [|p' r]; [done|]. cbn in Hhd. injection Hhd as ->.
  pose proof (inv_links _ _ HI) as (c0 & Hc0 & _ & Hn0 & Hr).
  assert (c0 = c) as -> by congruence. rewrite Hn in Hn0.
  destruct r as [|h' r']; [done|]. cbn in Hn0. injection Hn0 as <-.
  destruct Hr as (ch0 & Hch0 & Hp0 & _).
  assert (ch0 = ch) as -> by congruence. split; [done|].
  intros ->. pose proof (inv_nodup _ _ HI) as [Hp _]%NoDup_cons.
  apply Hp. by left.
Qed.

Lemma set_resident_old_head l ls1 q1 p ls2 k v (e : Time) :
  Inv l ((ls1 ++ [q1]) ++ p :: ls2) → cacheMap l !! k = Some p →
  ∃ l' c' h0 ch, set k v e l = Ok (tt, l')
                 ∧ head l' = Some p ∧ mem l' !! p = Some c' ∧ next c' = Some h0
                 ∧ mem l' !! h0 = Some ch ∧ prev ch = None.
Proof.
  intros HI Hk.
  destruct (Inv_item _ _ _ _ HI) as (c & d & Hc & Hd & Hcn & Hcp & Hkc).
  rewrite last_snoc in Hcp.
  pose proof (inv_nodup _ _ HI) as (Hnd1 & Hnd12 & [Hp2 Hnd2]%NoDup_cons)%NoDup_app.
  pose proof (inv_links _ _ HI) as [Hl1 _]%dlseg_app. cbn [first_or] in Hl1.
  pose proof Hl1 as [_ (c1 & Hc1 & Hc1p & _)]%dlseg_app.
  assert (q1 ∉ p :: ls2) as [Hq1p Hq1l2]%not_elem_of_cons.
  { apply Hnd12, elem_of_app. right. by left. }
  apply NoDup_app in Hnd1 as (Hnd1 & Hq1 & _).
  assert (q1 ∉ ls1) as Hq1' by (intros Hin; apply (Hq1 _ Hin); by left).
  unfold set. mstep. rewrite Hk. mstep.
  destruct ls1 as [|h0 ls1].
  - assert (head l = Some q1) as Hhd by (by rewrite (inv_head _ _ HI)).
    cbn in Hc1p. unfold last_or in Hc1p. cbn in Hc1p.
    rewrite Hhd, bool_decide_eq_true_2 by congruence.
    do 2 mstep.
    destruct ls2 as [|q2 ls2]; cbn [hd_error] in Hcn |- *.
    + repeat mstep. rewrite ?Hhd.
      eexists _, _, q1, _. split; [reflexivity|]. msimpl.
      split; [done|]. split; [lookup_solve|]. split; [done|].
      split; [lookup_solve|done].
    + pose proof (inv_links _ _ HI) as [_ (_ & _ & _ & _ & (c2 & Hc2 & _))]%dlseg_app.
      apply not_elem_of_cons in Hp2 as [Hpq2 Hp2].
      apply not_elem_of_cons in Hq1l2 as [Hq1q2 Hq1l2].
      repeat mstep. rewrite ?Hhd.
      eexists _, _, q1, _. split; [reflexivity|]. msimpl.
      split; [done|]. split; [lookup_solve|]. split; [done|].
      split; [lookup_solve|done].
  - assert (head l = Some h0) as Hhd by (by rewrite (inv_head _ _ HI)).
    pose proof Hl1 as (ch0 & Hch0 & Hch0p & _).
    assert (h0 ≠ p) as Hh0p.
    { intros ->. apply (Hnd12 p); [apply elem_of_app; left|]; by left. }
    assert (h0 ≠ q1) as Hh0q1.
    { intros ->. apply Hq1'. by left. }
    rewrite Hhd, bool_decide_eq_true_2 by congruence.
    do 2 mstep.
    destruct ls2 as [|q2 ls2]; cbn [hd_error] in Hcn |- *.
    + repeat mstep. rewrite ?Hhd.
      eexists _, _, h0, _. split; [reflexivity|]. msimpl.
      split; [done|]. split; [lookup_solve|]. split; [done|].
      split; [lookup_solve|done].
    + pose proof (inv_links _ _ HI) as [_ (_ & _ & _ & _ & (c2 & Hc2 & _))]%dlseg_app.
      apply not_elem_of_cons in Hp2 as [Hpq2 Hp2].
      apply not_elem_of_cons in Hq1l2 as [Hq1q2 Hq1l2].
      assert (h0 ≠ q2) as Hh0q2.
      { intros ->. apply (Hnd12 q2); [apply elem_of_app; left; by left|].
        right. by left. }
      repeat mstep. rewrite ?Hhd.
      eexists _, _, h0, _. split; [reflexivity|]. msimpl.
      split; [done|]. split; [lookup_solve|]. split; [done|].
      split; [lookup_solve|done].
Qed.

(** X11: on a well-formed cache, the write of a key that is resident returns
    normally with the index and [length] as they were, but never leaves the
    cache well-formed: the item of the key is put at [head] and either it is
    its own [next] (the key was the first) or the [prev] of the item after it
    is still nil (otherwise). *)
Theorem set_resident_breaks_links l k v (e : Time) :
  wf l = true → Contains k l = true →
  ∃ l', set k v e l = Ok (tt, l')
        ∧ wf l' = false
        ∧ cacheMap l' = cacheMap l ∧ length l' = length l.
Proof.
  intros HI%wf_Inv [p Hk]%Contains_lookup.
  destruct (Inv_split _ _ _ _ HI Hk) as (ls1 & ls2 & Hls).
  revert HI. rewrite Hls. intros HI.
  destruct (set_resident_spec _ _ _ _ _ v e HI Hk)
    as (l' & c' & Hset & Hhd & Hc' & _ & _ & Hnext & Hmap & Hlen & _).
  exists l'. split; [done|]. split; [|done].
  destruct (wf l') eqn:Hwf'; [exfalso|done]. apply wf_Inv in Hwf'.
  destruct ls1 as [|q1 ls1 _] using rev_ind.
  - rewrite (inv_head _ _ HI) in Hnext. cbn in Hnext.
    by destruct (Inv_head_links _ _ _ _ _ _ Hwf' Hhd Hc' Hnext Hc') as [_ ?].
  - destruct (set_resident_old_head _ _ _ _ _ _ v e HI Hk)
      as (l'' & c'' & h0 & ch & Hset' & _ & Hc'' & Hn'' & Hch & Hprev).
    assert (l'' = l') as -> by congruence.
    assert (c'' = c') as -> by congruence.
    destruct (Inv_head_links _ _ _ _ _ _ Hwf' Hhd Hc' Hn'' Hch) as [Hp _].
    congruence.
Qed.

Lemma Get_middle_old_head l ls1 q1 p q2 ls2 k c :
  Inv l ((ls1 ++ [q1]) ++ p :: q2 :: ls2) → cacheMap l !! k = Some p →
  mem l !! p = Some c →
  ∃ l' c' h0 ch, Get emptyVal k l = Ok ((value c, true), l')
                 ∧ head l' = Some p ∧ mem l' !! p = Some c' ∧ next c' = Some h0
                 ∧ mem l' !! h0 = Some ch ∧ prev ch = None.
Proof.
  intros HI Hk Hc0.
  destruct (Inv_item _ _ _ _ HI) as (c' & d & Hc & Hd & Hcn & Hcp & Hkc).
  assert (c' = c) as -> by congruence. clear Hc0.
  rewrite last_snoc in Hcp. cbn [hd_error] in Hcn.
  pose proof (inv_nodup _ _ HI) as (Hnd1 & Hnd12 & [Hp2 Hnd2]%NoDup_cons)%NoDup_app.
  pose proof (inv_links _ _ HI) as [Hl1 (_ & _ & _ & _ & (c2 & Hc2 & _))]%dlseg_app.
  cbn [first_or] in Hl1.
  pose proof Hl1 as [_ (c1 & Hc1 & Hc1p & _)]%dlseg_app.
  assert (q1 ∉ p :: q2 :: ls2) as [Hq1p [Hq1q2 _]%not_elem_of_cons]%not_elem_of_cons.
  { apply Hnd12, elem_of_app. right. by left. }
  apply not_elem_of_cons in Hp2 as [Hpq2 Hp2].
  apply NoDup_app in Hnd1 as (Hnd1 & Hq1 & _).
  assert (q1 ∉ ls1) as Hq1' by (intros Hin; apply (Hq1 _ Hin); by left).
  unfold Get. mstep. rewrite Hk. do 2 mstep.
  destruct ls1 as [|h0 ls1].
  - assert (head l = Some q1) as Hhd by (by rewrite (inv_head _ _ HI)).
    cbn in Hc1p. unfold last_or in Hc1p. cbn in Hc1p.
    repeat mstep. rewrite ?Hhd.
    eexists _, _, q1, _. split; [reflexivity|]. msimpl.
    split; [done|]. split; [lookup_solve|]. split; [done|].
    split; [lookup_solve|done].
  - assert (head l = Some h0) as Hhd by (by rewrite (inv_head _ _ HI)).
    pose proof Hl1 as (ch0 & Hch0 & Hch0p & _).
    assert (h0 ≠ p) as Hh0p.
    { intros ->. apply (Hnd12 p); [apply elem_of_app; left|]; by left. }
    assert (h0 ≠ q1) as Hh0q1.
    { intros ->. apply Hq1'. by left. }
    assert (h0 ≠ q2) as Hh0q2.
    { intros ->. apply (Hnd12 q2); [apply elem_of_app; left; by left|].
      right. by left. }
    repeat mstep. rewrite ?Hhd.
    eexists _, _, h0, _. split; [reflexivity|]. msimpl.
    split; [done|]. split; [lookup_solve|]. split; [done|].
    split; [lookup_solve|done].
Qed.

(** X12: on a well-formed cache, [Get] of a key that is neither the first nor
    the last of the recency list returns its value and true, but does not
    leave the cache well-formed: the item is put at [head] and the [prev] of
    the item after it is still nil. *)
Theorem Get_middle_breaks_links l k v (d : option Time)
    (es1 es2 : list (K * V * option Time)) :
  wf l = true → entries l = es1 ++ (k, v, d) :: es2 → es1 ≠ [] → es2 ≠ [] →
  ∃ l', Get emptyVal k l = Ok ((v, true), l') ∧ wf l' = false.
Proof.
  intros Hwf Hent Hes1 Hes2. pose proof (wf_Inv _ Hwf) as HI.
  pose proof (entries_Forall2 _ _ HI) as Hall. rewrite Hent in Hall.
  apply Forall2_app_inv_r in Hall as (L1 & ps & HL1 & Hps & Hls).
  apply Forall2_cons_inv_r in Hps as (p & L2 & Hp & HL2 & ->).
  revert HI. rewrite Hls. intros HI.
  destruct (entry_index _ _ _ _ _ _ HI ltac:(apply elem_of_app; right; by left) Hp)
    as (c & Hk & Hc & <-).
  destruct L1 as [|q1 ls1 _] using rev_ind.
  { apply Forall2_nil_inv_l in HL1. done. }
  destruct L2 as [|q2 ls2].
  { apply Forall2_nil_inv_l in HL2. done. }
  destruct (Get_middle_old_head _ _ _ _ _ _ _ _ HI Hk Hc)
    as (l' & c' & h0 & ch & HGet & Hhd & Hc' & Hn & Hch & Hprev).
  exists l'. split; [done|].
  destruct (wf l') eqn:Hwf'; [exfalso|done]. apply wf_Inv in Hwf'.
  destruct (Inv_head_links _ _ _ _ _ _ Hwf' Hhd Hc' Hn Hch) as [Hp' _].
  congruence.
Qed.

(** ** listAll, the reading of the tests *)

Lemma listAll_loop_spec l rest :
  ∀ p done (out : gmap K V) fuel,
    Inv l (done ++ p :: rest) → (Datatypes.length rest ≤ fuel)%nat →
    listAll_loop fuel (Some p) out l
    = Ok (foldl (λ o e, <[e.1.1 := e.1.2]> o) out
            (omap (λ q, item_data <$> mem l !! q) (p :: rest)), l).
Proof.
  induction rest as [|q rest IH]; intros p done out fuel HI Hfuel.
  - destruct (Inv_item _ _ _ _ HI) as (c & d & Hc & _ & Hcn & _).
    cbn [hd_error] in Hcn.
    assert (∀ n, listAll_loop n (Some p) out l
                 = Ok (<[key c := value c]> out, l)) as Hrun.
    { intros n. destruct n; cbn [listAll_loop]; by repeat mstep. }
    rewrite Hrun. cbn. by rewrite Hc.
  - destruct (Inv_item _ _ _ _ HI) as (c & d & Hc & _ & Hcn & _).
    cbn [hd_error] in Hcn.
    destruct fuel as [|fuel]; [cbn in Hfuel; lia|].
    cbn [listAll_loop]. do 4 mstep.
    rewrite (IH q (done ++ [p])); [|by rewrite <- app_assoc|cbn in Hfuel; lia].
    cbn [omap list_omap]. by rewrite Hc.
Qed.

Lemma foldl_insert_lookup (es : list (K * V * option Time)) k v :
  NoDup ((λ e, e.1.1) <$> es) →
  foldl (λ o e, <[e.1.1 := e.1.2]> o) (∅ : gmap K V) es !! k = Some v
  ↔ ∃ d, (k, v, d) ∈ es.
Proof.
  induction es as [|[[k0 v0] d0] es IH] using rev_ind; intros Hnd.
  - cbn. rewrite lookup_empty. split; [done|]. by intros [d Hd%elem_of_nil].
  - rewrite foldl_snoc. cbn.
    rewrite fmap_app in Hnd. apply NoDup_app in Hnd as (Hnd & Hdisj & _).
    destruct (decide (k = k0)) as [->|Hne].
    + rewrite lookup_insert_eq. split.
      * intros [= ->]. exists d0. apply elem_of_app. right. by left.
      * intros [d [Hin|Hin%list_elem_of_singleton]%elem_of_app]; [|congruence].
        exfalso. apply (Hdisj k0); [|by left].
        apply list_elem_of_fmap. by exists (k0, v, d).
    + rewrite lookup_insert_ne by done. rewrite (IH Hnd). split.
      * intros [d Hd]. exists d. apply elem_of_app. by left.
      * intros [d [Hin|Hin%list_elem_of_singleton]%elem_of_app]; [by exists d|congruence].
Qed.

(** X13: [listAll] of the tests, started at [head] of a well-formed cache that
    is not empty, returns the map that sends each resident key to its value,
    and reads only; started at nil (the [head] of an empty cache) it panics. *)
Theorem listAll_is_the_resident_map l (fuel : nat) :
  wf l = true → entries l ≠ [] → (Datatypes.length (entries l) ≤ S fuel)%nat →
  (∃ out : gmap K V, listAll fuel (head l) l = Ok (out, l)
        ∧ ∀ k v, out !! k = Some v ↔ ∃ d, (k, v, d) ∈ entries l)
  ∧ listAll fuel None l = Panic.
Proof.
  intros HI%wf_Inv Hne Hfuel. split; [|by destruct fuel].
  pose proof (resident_keys_NoDup _ _ HI) as Hnd. unfold resident_keys in Hnd.
  rewrite (entries_length _ _ HI) in Hfuel.
  revert Hne Hnd. rewrite (entries_Inv _ _ HI). rewrite (inv_head _ _ HI).
  revert HI Hfuel. generalize (order l). intros ls HI Hfuel Hne Hnd.
  destruct ls as [|p rest]; [done|]. cbn [hd_error].
  unfold listAll. rewrite (listAll_loop_spec l rest p [] ∅ fuel HI).
  - eexists. split; [done|]. intros k v. by apply foldl_insert_lookup.
  - cbn in Hfuel. lia.
Qed.

(** ** A firing of the cleaner that finds nothing to remove *)

Lemma sweep_nothing_stale l (t : Time) rest :
  ∀ done fuel i,
    Inv l (done ++ rest) →
    (∀ p, p ∈ rest → stale (mem l) t p = false) →
    (Datatypes.length rest ≤ fuel)%nat →
    sweep fuel (λ _, t) i (hd_error rest) l = Ok (tt, l).
Proof.
  induction rest as [|p rest IH]; intros done fuel i HI Hfresh Hfuel.
  - by destruct fuel.
  - destruct fuel as [|fuel]; [cbn in Hfuel; lia|].
    destruct (Inv_item _ _ _ _ HI) as (c & d & Hc & Hd & Hcn & _).
    pose proof (Hfresh p ltac:(by left)) as Hp.
    unfold stale in Hp. rewrite Hc in Hp. cbn in Hp.
    unfold expired, item_data in Hp. cbn in Hp. rewrite Hd in Hp.
    cbn [hd_error sweep]. mstep. rewrite Hd, Hp. do 2 mstep.
    apply (IH (done ++ [p])); [by rewrite <- app_assoc| |cbn in Hfuel; lia].
    intros q Hq. apply Hfresh. by right.
Qed.

(** X14: on a well-formed cache, a firing of the cleaner at a time [t] that no
    resident deadline is before changes nothing at all. *)
Theorem tick_nothing_expired l (t : Time) (fuel : nat) :
  wf l = true → (∀ e, e ∈ entries l → expired t e = false) →
  (Datatypes.length (entries l) ≤ fuel)%nat →
  tick fuel (λ _, t) l = Ok (tt, l).
Proof.
  intros HI%wf_Inv Hfresh Hfuel. unfold tick, startCleaner.
  destruct (withExpiry l); [|done]. mstep. rewrite (inv_head _ _ HI).
  rewrite (entries_length _ _ HI) in Hfuel.
  apply (sweep_nothing_stale l t (order l) []); [done| |done].
  intros p Hp. unfold stale.
  destruct (dlseg_lookup _ _ _ _ p (inv_links _ _ HI) Hp) as [c Hc].
  rewrite Hc. cbn. apply Hfresh, (elem_of_entries _ _ _ HI). by exists p, c.
Qed.

(** ** The package in lru/ (src/unnamed/part_002) *)

Lemma Sub_only_item_panics_aux l k v p c :
  cacheMap l !! k = Some p → mem l !! p = Some c →
  prev c = None → next c = None →
  Sub.Del k l = Panic ∧ Sub.Set_ k v l = Panic.
Proof.
  intros Hk Hc Hp Hn.
  assert (Sub.Contains k l = true) as Hin.
  { unfold Sub.Contains. apply bool_decide_eq_true. by exists p. }
  split.
  - unfold Sub.Del, Sub.del. mstep. rewrite Hin. cbn [negb].
    mstep. rewrite Hk. by do 2 mstep.
  - unfold Sub.Set_. mstep. rewrite Hin.
    mstep. rewrite Hk. by do 2 mstep.
Qed.

(** X15: in the package in lru/, [del] has no case for an item without
    neighbours: when the item of [k] has neither [prev] nor [next] (it is the
    only one of the list), [Del k] panics, and so does [Set k v], which
    unlinks the item in the same way. *)
Theorem Sub_only_item_panics l k v p c :
  cacheMap l !! k = Some p → mem l !! p = Some c →
  prev c = None → next c = None →
  Sub.Del k l = Panic ∧ Sub.Set_ k v l = Panic.
Proof. apply Sub_only_item_panics_aux. Qed.

(** X16: in the package in lru/, a write of a new key into a cache that is
    full and holds one item only panics in the eviction: so a cache of
    capacity 1 does not take a second key. *)
Theorem Sub_Set_full_with_one_item_panics l k v p c :
  cacheMap l !! k = None → size l ≤ length l →
  tail l = Some p → mem l !! p = Some c → cacheMap l !! key c = Some p →
  prev c = None → next c = None →
  Sub.Set_ k v l = Panic.
Proof.
  intros Hk Hfull Htl Hc Hkc Hp Hn.
  assert (Sub.Contains k l = false) as Hout.
  { unfold Sub.Contains. apply bool_decide_eq_false. rewrite Hk. by intros [? ?]. }
  destruct (Sub_only_item_panics_aux l (key c) v p c Hkc Hc Hp Hn) as [Hdel _].
  unfold Sub.Set_. mstep. rewrite Hout. do 2 mstep.
  rewrite bool_decide_eq_true_2 by done. mstep. rewrite Htl. mstep.
  rewrite !bind_assoc. unfold mbind, M_bind. unfold Sub.Del in Hdel. by rewrite Hdel.
Qed.

(** X17: apart from that case the two packages delete alike: when the item of
    [k] has a neighbour, or [k] is not resident, [del] of the package in lru/
    does exactly what [del] of the main package does. *)
Theorem Sub_del_agrees l k :
  (∀ p c, cacheMap l !! k = Some p → mem l !! p = Some c →
          prev c ≠ None ∨ next c ≠ None) →
  Sub.del k l = del k l.
Proof.
  intros Hnb. destruct (cacheMap l !! k) as [p|] eqn:Hk.
  - assert (Sub.Contains k l = true) as Hin.
    { unfold Sub.Contains. apply bool_decide_eq_true. by exists p. }
    unfold Sub.del, del. do 2 mstep.
    rewrite Hin, (lookup_Contains _ _ _ Hk). cbn [negb]. do 2 mstep. rewrite Hk.
    destruct (mem l !! p) as [c|] eqn:Hc.
    + specialize (Hnb p c eq_refl Hc).
      destruct (prev c) as [q1|] eqn:Hp, (next c) as [q2|] eqn:Hn;
        [| | |by destruct Hnb]; repeat mstep;
        rewrite ?bool_decide_eq_false_2 by done; repeat mstep;
        rewrite ?bind_assoc; reflexivity.
    + unfold mbind, M_bind, load. by rewrite Hc.
  - rewrite (del_absent _ _ Hk). unfold Sub.del. mstep.
    unfold Sub.Contains. rewrite bool_decide_eq_false_2; [done|].
    rewrite Hk. by intros [? ?].
Qed.

(** X18: [Get] of the package in lru/ is [Get] of the main package. *)
Theorem Sub_Get_agrees l k : Sub.Get emptyVal k l = Get emptyVal k l.
Proof.
  destruct (cacheMap l !! k) as [p|] eqn:Hk.
  - assert (Sub.Contains k l = true) as Hin.
    { unfold Sub.Contains. apply bool_decide_eq_true. by exists p. }
    unfold Sub.Get, Get. do 2 mstep. rewrite Hin. mstep. by rewrite Hk.
  - rewrite (Get_miss _ _ Hk). unfold Sub.Get. mstep.
    unfold Sub.Contains. rewrite bool_decide_eq_false_2; [done|].
    rewrite Hk. by intros [? ?].
Qed.

Lemma listAll_loop_walk l rest :
  ∀ p (out : gmap K V) fuel n,
    walk n (mem l) (Some p) = Some (p :: rest) →
    (Datatypes.length rest ≤ fuel)%nat →
    listAll_loop fuel (Some p) out l
    = Ok (foldl (λ o e, <[e.1.1 := e.1.2]> o) out
            (omap (λ q, item_data <$> mem l !! q) (p :: rest)), l).
Proof.
  induction rest as [|q rest IH]; intros p out fuel n Hw Hfuel;
    apply walk_cons_inv in Hw as (_ & n' & c & -> & Hc & Hw).
  - apply walk_nil_inv in Hw as Hn.
    assert (∀ f, listAll_loop f (Some p) out l
                 = Ok (<[key c := value c]> out, l)) as Hrun.
    { intros f. destruct f; cbn [listAll_loop]; by repeat mstep. }
    rewrite Hrun. cbn. by rewrite Hc.
  - pose proof (walk_head _ _ _ _ Hw) as Hn. cbn in Hn. rewrite Hn in Hw.
    destruct fuel as [|fuel]; [cbn in Hfuel; lia|].
    cbn [listAll_loop]. do 4 mstep.
    rewrite (IH q _ fuel n'); [|done|cbn in Hfuel; lia].
    cbn [omap list_omap]. by rewrite Hc.
Qed.

(** X19: [ListAll] of the package in lru/ panics on a cache whose [head] is
    nil (an empty cache); when the items from [head] by [next] end at nil, it
    returns the map built from them in that order, key to value, and reads
    only. *)
Theorem Sub_ListAll_spec l (n fuel : nat) ls :
  walk n (mem l) (head l) = Some ls → (Datatypes.length ls ≤ S fuel)%nat →
  (ls = [] → Sub.ListAll fuel l = Panic)
  ∧ (ls ≠ [] →
     Sub.ListAll fuel l
     = Ok (foldl (λ o e, <[e.1.1 := e.1.2]> o) ∅
             (omap (λ q, item_data <$> mem l !! q) ls), l)).
Proof.
  intros Hw Hfuel. pose proof (walk_head _ _ _ _ Hw) as Hhd.
  unfold Sub.ListAll. mstep. rewrite Hhd. split.
  - intros ->. by destruct fuel.
  - intros Hne. destruct ls as [|p rest]; [done|]. cbn [hd_error].
    rewrite Hhd in Hw.
    apply (listAll_loop_walk l rest p ∅ fuel n Hw). cbn in Hfuel. lia.
Qed.

(** ** The cleaner on a damaged list *)

(** With [head] nil the loop of the cleaner has nothing to visit, whatever the
    index still holds. *)
Lemma tick_nil_head l (fuel : nat) (clock : nat → Time) :
  head l = None → tick fuel clock l = Ok (tt, l).
Proof.
  intros Hhd. unfold tick. destruct (startCleaner l); [|done].
  mstep. rewrite Hhd. by destruct fuel.
Qed.

(** [del] of the key of an item that is its own [next]: the item stays at
    [head] and stays its own [next]; only the index and [length] change. *)
Lemma del_self_loop l p c :
  mem l !! p = Some c → prev c = None → next c = Some p →
  cacheMap l !! key c = Some p →
  ∃ l', del (key c) l = Ok (true, l')
        ∧ mem l' !! p = Some c ∧ cacheMap l' = delete (key c) (cacheMap l)
        ∧ head l' = Some p ∧ tail l' = tail l
        ∧ length l' = int_wrap (length l - 1).
Proof.
  intros Hc Hp Hn Hk. unfold del. mstep.
  rewrite (lookup_Contains _ _ _ Hk). cbn [negb]. mstep. rewrite Hk.
  repeat mstep. rewrite bool_decide_eq_false_2 by done.
  repeat mstep. eexists. split; [reflexivity|]. msimpl.
  split; [|done].
  rewrite list_lookup_insert_eq by (by eapply lookup_lt_Some).
  f_equal. destruct c. cbn in *. by subst.
Qed.

(** The loop of the cleaner on an item that is its own [next], indexed under
    its key or not: it comes back to the item for ever. *)
Lemma sweep_self_loop p c (clock : nat → Time) :
  prev c = None → next c = Some p → is_Some (ttl c) →
  ∀ fuel l i,
    mem l !! p = Some c →
    cacheMap l !! key c = None ∨ cacheMap l !! key c = Some p →
    sweep fuel clock i (Some p) l = OutOfFuel.
Proof.
  intros Hp Hn [d Hd] fuel.
  induction fuel as [|fuel IH]; intros l i Hc Hk; [done|].
  cbn [sweep]. mstep. rewrite Hd.
  destruct (Before d (clock i)).
  - mstep. destruct Hk as [Hk|Hk].
    + rewrite bind_assoc, (bind_ok _ _ _ _ _ (del_absent _ _ Hk)).
      repeat mstep. apply IH; [done|by left].
    + destruct (del_self_loop _ _ _ Hc Hp Hn Hk) as (l' & Hdel & Hc' & Hmap & _).
      rewrite bind_assoc, (bind_ok _ _ _ _ _ Hdel). repeat mstep.
      apply IH; [done|]. left. rewrite Hmap. apply lookup_delete_eq.
  - repeat mstep. by apply IH.
Qed.

(** The state [set] leaves after a write to the key at [head]: the head item
    is its own [next].  One firing of the cleaner on it never returns. *)
Lemma tick_self_loop l p c (clock : nat → Time) (fuel : nat) :
  withExpiry l = true → head l = Some p →
  mem l !! p = Some c → prev c = None → next c = Some p → is_Some (ttl c) →
  cacheMap l !! key c = Some p →
  tick fuel clock l = OutOfFuel.
Proof.
  intros Hwe Hhd Hc Hp Hn Hd Hk.
  unfold tick, startCleaner. rewrite Hwe. mstep. rewrite Hhd.
  apply (sweep_self_loop p c); [done|done|done|done|by right].
Qed.

End Proofs.

(** * Runs on caches of integers *)

Lemma elem_of_by_compute {A} `{EqDecision A} (x : A) (xs : list A) :
  bool_decide (x ∈ xs) = true → x ∈ xs.
Proof. apply bool_decide_eq_true. Qed.

(** ** The examples of the tests (src/cache_test.go) *)

(** Capacity 3, keys 1, 2, 3, 4 written in order: key 1 is evicted. *)
Lemma eviction_example :
  ∃ l, exec (Set_ 4 4) cache123 = Ok l
       ∧ wf l = true ∧ resident_keys l = [4; 3; 2] ∧ Contains 1 l = false.
Proof. eexists. split; [vm_compute; reflexivity|]. by vm_compute. Qed.

(** Capacity 3, keys 1, 2, 3 written, [Get(1)], then key 4: key 2 is evicted. *)
Lemma promotion_example :
  ∃ l, exec (Set_ 4 4) (exec (Get 0 1) cache123) = Ok l
       ∧ wf l = true ∧ resident_keys l = [4; 1; 3] ∧ Contains 2 l = false.
Proof. eexists. split; [vm_compute; reflexivity|]. by vm_compute. Qed.

(** ** Where the code leaves the invariant *)

(** C1: after [Set(1,1); Set(1,1); Set(2,2); Set(3,3)] on a cache of capacity
    1 the run has returned normally and [length] is 2, above the capacity:
    keys 2 and 3 are both resident. *)
Theorem C1_length_exceeds_capacity :
  overflow_run = Ok (final overflow_run)
  ∧ size (final overflow_run) = 1
  ∧ length (final overflow_run) = 2
  ∧ Contains 2 (final overflow_run) = true
  ∧ Contains 3 (final overflow_run) = true.
Proof. by vm_compute. Qed.

(** C2: after [Set(1,1); Set(2,2); Set(1,7)] the invariant is broken: the item
    of key 1 is at [head] and the item of key 2 is its [next] and the [tail],
    but the [prev] of that item is still nil, so the walk from [tail] by [prev]
    stops before [head]; a [Del(2)] then empties [head] and [tail] while key 1
    stays in the index. *)
Theorem C2_retouch_breaks_links :
  retouch_tail_run = Ok (final retouch_tail_run)
  ∧ wf (final retouch_tail_run) = false
  ∧ head (final retouch_tail_run) = Some 0%nat
  ∧ tail (final retouch_tail_run) = Some 1%nat
  ∧ next <$> mem (final retouch_tail_run) !! 0%nat = Some (Some 1%nat)
  ∧ prev <$> mem (final retouch_tail_run) !! 1%nat = Some None
  ∧ ∃ l, exec (Del 2) retouch_tail_run = Ok l
         ∧ head l = None ∧ tail l = None
         ∧ Contains 1 l = true ∧ length l = 1.
Proof.
  do 6 (split; [by vm_compute|]).
  eexists. split; [vm_compute; reflexivity|]. by vm_compute.
Qed.

(** C3: capacity 3, [Set] of 1, 2, 3, then [Get(2)], then [Set] of 4 and 5:
    keys 2, 4 and 5 are resident and key 2 is the one touched longest ago.
    [Set(6,6)] then evicts key 5, the key written last, and keeps key 2. *)
Theorem C3_evicts_most_recent :
  (∃ l, get_middle_run = Ok l
        ∧ Contains 2 l = true ∧ Contains 4 l = true ∧ Contains 5 l = true
        ∧ length l = 3 ∧ size l = 3)
  ∧ (∃ l, wrong_victim_run = Ok l
          ∧ Contains 5 l = false
          ∧ Contains 2 l = true ∧ Contains 4 l = true ∧ Contains 6 l = true).
Proof.
  split; (eexists; split; [vm_compute; reflexivity|]); by vm_compute.
Qed.

(** C4: after [Set(1,1); Set(2,2)], the write [Set(2,5)] to the key at [head]
    keeps [length] and stores the value, but leaves the item as its own
    [next]: the walk from [head] never reaches nil, whatever the fuel, and the
    item of key 1 is no longer met on it. *)
Theorem C4_retouch_head_self_loop :
  retouch_head_run = Ok (final retouch_head_run)
  ∧ length (final retouch_head_run) = 2
  ∧ head (final retouch_head_run) = Some 1%nat
  ∧ item_data <$> mem (final retouch_head_run) !! 1%nat = Some (2, 5, Some zeroTime)
  ∧ next <$> mem (final retouch_head_run) !! 1%nat = Some (Some 1%nat)
  ∧ Contains 1 (final retouch_head_run) = true
  ∧ ∀ fuel, walk fuel (mem (final retouch_head_run)) (head (final retouch_head_run)) = None.
Proof.
  do 6 (split; [by vm_compute|]).
  assert (∃ c, mem (final retouch_head_run) !! 1%nat = Some c ∧ next c = Some 1%nat)
    as (c & Hc & Hn).
  { eexists. split; [vm_compute; reflexivity|]. by vm_compute. }
  replace (head (final retouch_head_run)) with (Some 1%nat) by (by vm_compute).
  generalize dependent (mem (final retouch_head_run)). intros m Hc fuel.
  induction fuel as [|fuel IH]; [done|].
  cbn. rewrite Hc, Hn, IH. done.
Qed.

(** What the broken links do to the later calls: a [Get] of the old head finds
    its [prev] nil and returns without moving it, ... *)
Lemma Get_after_broken_links :
  ∃ l, get_twice_run = Ok l
       ∧ wf l = false
       ∧ head l = Some 1%nat
       ∧ key <$> mem l !! 1%nat = Some 2
       ∧ Get 0 3 l = Ok ((3, true), l).
Proof. eexists. split; [vm_compute; reflexivity|]. by vm_compute. Qed.

(** ... and the cleaner does not come back from an item that is its own
    [next]. *)
Lemma tick_on_self_loop (fuel : nat) :
  refresh_head_run = Ok (final refresh_head_run)
  ∧ withExpiry (final refresh_head_run) = true
  ∧ tick fuel (λ _, 1500) (final refresh_head_run) = OutOfFuel.
Proof.
  split; [by vm_compute|]. split; [by vm_compute|].
  assert (∃ c, mem (final refresh_head_run) !! 0%nat = Some c
               ∧ next c = Some 0%nat ∧ ttl c = Some 2000001000)
    as (c & Hc & Hn & Ht).
  { eexists. split; [vm_compute; reflexivity|]. by vm_compute. }
  assert (∀ n i, sweep n (λ _, 1500) i (Some 0%nat) (final refresh_head_run)
                 = OutOfFuel) as Hloop.
  { generalize dependent (final refresh_head_run). intros l Hc.
    induction n as [|n IH]; intros i; [done|].
    cbn [sweep]. unfold mbind, M_bind, load, mret, M_ret.
    rewrite Hc, Ht. change (Before 2000001000 1500) with false.
    cbn iota beta. rewrite Hc, Hn. apply IH. }
  unfold tick, startCleaner.
  replace (withExpiry (final refresh_head_run)) with true by (by vm_compute).
  unfold mbind, M_bind, get.
  replace (head (final refresh_head_run)) with (Some 0%nat) by (by vm_compute).
  apply Hloop.
Qed.

(** ** What the damaged states do to [Del], [Get] and the cleaner *)

(** C5: after [Set(1,1); Set(1,1)] on [New(3)] key 1 is the only resident key
    (the index holds it alone and [length] is 1) and its item is its own
    [next].  [Del(1)] returns true, leaves the key absent and [length] 0, but
    does not empty [head] and [tail]: both still point at the deleted item. *)
Theorem C5_Del_sole_entry_keeps_head :
  ∃ l l', rewrite_sole_run = Ok l
          ∧ cacheMap l = {[1 := 0%nat]} ∧ length l = 1
          ∧ Contains 1 l = true
          ∧ Del 1 l = Ok (true, l')
          ∧ Contains 1 l' = false ∧ length l' = 0
          ∧ head l' = Some 0%nat ∧ tail l' = Some 0%nat
          ∧ key <$> mem l' !! 0%nat = Some 1.
Proof.
  eexists _, _. split; [vm_compute; reflexivity|].
  do 3 (split; [by vm_compute|]).
  split; [vm_compute; reflexivity|]. by vm_compute.
Qed.

(** C8: after the three writes of [ttl123] and a [Get(2)], key 3 is resident
    with the deadline 2000001000, which is before the time 3000000000.
    [Contains(3)] is true and [Get(3)] returns 3 and true, but the entry is not
    moved to [head]: the state is unchanged and [head] is still the item of
    key 2. *)
Theorem C8_Get_expired_not_promoted :
  ∃ l, get_stale_run = Ok l
       ∧ withExpiry l = true
       ∧ cacheMap l !! 3 = Some 2%nat
       ∧ item_data <$> mem l !! 2%nat = Some (3, 3, Some 2000001000)
       ∧ Before 2000001000 3000000000 = true
       ∧ Contains 3 l = true
       ∧ Get 0 3 l = Ok ((3, true), l)
       ∧ head l = Some 1%nat
       ∧ key <$> mem l !! 1%nat = Some 2.
Proof. eexists. split; [vm_compute; reflexivity|]. by vm_compute. Qed.

(** C9: after [SetWithExpiry] of key 1 (20000 ms), of key 2 (2000 ms) and of
    key 1 again, all at time 1000, a firing of the cleaner at time 3000000000
    removes the expired key 2 and with it empties [head] and [tail], while
    key 1 stays in the index.  From then on every firing returns at once with
    the state unchanged: at time 30000000000 the deadline of key 1 has passed
    and key 1 is still resident. *)
Theorem C9_sweep_leaves_expired_entry :
  ∃ l l1, refresh_tail_run = Ok l
          ∧ withExpiry l = true
          ∧ tick 2 (λ _, 3000000000) l = Ok (tt, l1)
          ∧ Contains 2 l1 = false
          ∧ head l1 = None ∧ tail l1 = None
          ∧ Contains 1 l1 = true ∧ length l1 = 1
          ∧ cacheMap l1 !! 1 = Some 0%nat
          ∧ item_data <$> mem l1 !! 0%nat = Some (1, 1, Some 20000001000)
          ∧ Before 20000001000 30000000000 = true
          ∧ ∀ fuel clock, tick fuel clock l1 = Ok (tt, l1).
Proof.
  eexists _, _. split; [vm_compute; reflexivity|].
  split; [by vm_compute|]. split; [vm_compute; reflexivity|].
  do 8 (split; [by vm_compute|]).
  intros fuel clock. apply tick_nil_head. by vm_compute.
Qed.

(** C10: on the cache of [NewWithExpiry(3)], after [Set(1,1); Set(2,2);
    Set(1,7); Del(2)] key 1 is resident with the value 7 and the zero deadline
    that [Set] has written, but [head] is nil: every firing of the cleaner
    returns with the state unchanged and the entry stays.  After
    [Set(1,1); Set(1,1)] the item of key 1 is its own [next] and a firing of
    the cleaner never returns. *)
Theorem C10_Set_entry_survives_sweep :
  (∃ l, plain_set_run = Ok l
        ∧ withExpiry l = true
        ∧ Contains 1 l = true
        ∧ cacheMap l !! 1 = Some 0%nat
        ∧ item_data <$> mem l !! 0%nat = Some (1, 7, Some zeroTime)
        ∧ Before zeroTime 1500 = true
        ∧ head l = None
        ∧ ∀ fuel clock, tick fuel clock l = Ok (tt, l))
  ∧ (∃ l, plain_set_head_run = Ok l
          ∧ withExpiry l = true
          ∧ cacheMap l !! 1 = Some 0%nat
          ∧ item_data <$> mem l !! 0%nat = Some (1, 1, Some zeroTime)
          ∧ ∀ fuel clock, tick fuel clock l = OutOfFuel).
Proof.
  split.
  - eexists. split; [vm_compute; reflexivity|].
    do 6 (split; [by vm_compute|]).
    intros fuel clock. apply tick_nil_head. by vm_compute.
  - eexists. split; [vm_compute; reflexivity|].
    do 3 (split; [by vm_compute|]).
    intros fuel clock.
    eapply (tick_self_loop _ 0%nat);
      [by vm_compute|by vm_compute|vm_compute; reflexivity
      |by vm_compute|by vm_compute|by eexists|by vm_compute].
Qed.

(** ** Where the code does otherwise by design *)

(** C6 is not what the code does: [New(0)] and [NewWithExpiry(0)] return an
    empty, well-formed cache that answers [Get] and [Del]; the failure comes
    only with the first [Set], which panics. *)
Lemma C6_zero_capacity_is_constructed :
  (New 0 : lruZ) = mkLru [] ∅ 0 false None None 0
  ∧ (NewWithExpiry 0 : lruZ) = mkLru [] ∅ 0 true None None 0
  ∧ wf (New 0 : lruZ) = true
  ∧ Get 0 1 (New 0 : lruZ) = Ok ((0, false), New 0)
  ∧ Del 1 (New 0 : lruZ) = Ok (false, New 0)
  ∧ Set_ 1 1 (New 0 : lruZ) = Panic
  ∧ SetWithExpiry 1000 1 1 2000 (NewWithExpiry 0 : lruZ) = Panic.
Proof. by vm_compute. Qed.

Lemma C6_nonpositive_size_witness :
  0 ≤ 0
  ∧ Set_ 1 1 (New 0 : lruZ) = Panic
  ∧ SetWithExpiry 1000 1 1 2000 (NewWithExpiry 0 : lruZ) = Panic.
Proof.
  split; [lia|].
  apply (C6_nonpositive_size_fails_at_first_write (K:=Z) (V:=Z) 0 1 1 1000 2000).
  lia.
Defined.

(** C7 is not what the code does: [SetWithExpiry] on a cache from [New] and
    [Set] on a cache from [NewWithExpiry] both return normally and store the
    entry; nothing is reported. *)
Lemma C7_mismatched_write_is_accepted :
  (∃ l, SetWithExpiry 1000 1 1 2000 (New 3 : lruZ) = Ok (tt, l)
        ∧ withExpiry l = false
        ∧ entries l = [(1, 1, Some 2000001000)])
  ∧ (∃ l, Set_ 1 1 (NewWithExpiry 3 : lruZ) = Ok (tt, l)
          ∧ withExpiry l = true
          ∧ entries l = [(1, 1, Some 0)]).
Proof.
  split; (eexists; split; [vm_compute; reflexivity|]); by vm_compute.
Qed.

Lemma C7_writes_ignore_mode_witness :
  wf (final cache123) = true ∧ 0 < size (final cache123)
  ∧ ∃ l' p c, SetWithExpiry 1000 9 9 2000 (with_withExpiry false (final cache123))
                = Ok (tt, l')
              ∧ cacheMap l' !! 9 = Some p ∧ mem l' !! p = Some c
              ∧ item_data c = (9, 9, Some (Add 1000 (Duration_of_ms 2000)))
              ∧ withExpiry l' = false.
Proof.
  split; [by vm_compute|]. split; [by vm_compute|].
  apply (C7_writes_ignore_mode (final cache123) false 9 9 1000 2000);
    by vm_compute.
Defined.

(** ** The operations on well-formed states, on a run *)

Lemma Del_well_formed_witness :
  wf (final cache123) = true
  ∧ (Contains 2 (final cache123) = true →
     ∃ l', Del 2 (final cache123) = Ok (true, l')
           ∧ Contains 2 l' = false
           ∧ length l' = length (final cache123) - 1
           ∧ wf l' = true
           ∧ (resident_keys (final cache123) = [2] → head l' = None ∧ tail l' = None)).
Proof.
  split; [by vm_compute|].
  apply (Del_well_formed (final cache123) 2). by vm_compute.
Defined.

Lemma lookups_ignore_expiry_witness :
  wf (final ttl123) = true ∧ withExpiry (final ttl123) = true
  ∧ (2, 2, Some 2000001000) ∈ entries (final ttl123)
  ∧ Before 2000001000 3000000000 = true
  ∧ Contains 2 (final ttl123) = true
  ∧ ∃ l' p c, Get 0 2 (final ttl123) = Ok ((2, true), l')
              ∧ head l' = Some p ∧ mem l' !! p = Some c
              ∧ item_data c = (2, 2, Some 2000001000)
              ∧ Contains 2 l' = true.
Proof.
  assert ((2, 2, Some 2000001000) ∈ entries (final ttl123)) as Hin.
  { apply elem_of_by_compute. by vm_compute. }
  split; [by vm_compute|]. split; [by vm_compute|]. split; [exact Hin|].
  split; [by vm_compute|].
  apply (lookups_ignore_expiry 0 (final ttl123) 2 2 2000001000 3000000000);
    [by vm_compute|by vm_compute|exact Hin|by vm_compute].
Defined.

Lemma tick_removes_expired_witness :
  wf (final ttl123) = true ∧ withExpiry (final ttl123) = true
  ∧ (Datatypes.length (entries (final ttl123)) ≤ 3)%nat
  ∧ ∃ l', tick 3 (λ _, 3000000000) (final ttl123) = Ok (tt, l')
          ∧ wf l' = true
          ∧ entries l'
            = List.filter (λ e, negb (expired 3000000000 e)) (entries (final ttl123))
          ∧ (∀ k v d, (k, v, Some d) ∈ entries (final ttl123) →
                      Contains k l' = negb (Before d 3000000000)).
Proof.
  assert (Datatypes.length (entries (final ttl123)) ≤ 3)%nat as Hlen.
  { vm_compute. lia. }
  split; [by vm_compute|]. split; [by vm_compute|]. split; [exact Hlen|].
  apply (tick_removes_expired (final ttl123) 3000000000 3);
    [by vm_compute|by vm_compute|exact Hlen].
Defined.

Lemma Set_entries_swept_witness :
  wf (final ttl123) = true ∧ withExpiry (final ttl123) = true
  ∧ 0 < size (final ttl123) ∧ zeroTime < 1500
  ∧ (Contains 7 (final ttl123) = false →
     ∃ l1 l2, Set_ 7 7 (final ttl123) = Ok (tt, l1)
              ∧ (7, 7, Some zeroTime) ∈ entries l1
              ∧ tick (S (Datatypes.length (entries (final ttl123)))) (λ _, 1500) l1
                = Ok (tt, l2)
              ∧ Contains 7 l2 = false).
Proof.
  split; [by vm_compute|]. split; [by vm_compute|]. split; [by vm_compute|].
  split; [by vm_compute|].
  apply (Set_entries_swept (final ttl123) 7 7 1500); by vm_compute.
Defined.

(** ** The further properties, on a run *)

Lemma Set_then_Get_witness :
  wf (final cache123) = true ∧ 0 < size (final cache123)
  ∧ ∃ l', Set_ 2 9 (final cache123) = Ok (tt, l')
          ∧ Contains 2 l' = true
          ∧ Get 0 2 l' = Ok ((9, true), l').
Proof.
  assert (wf (final cache123) = true) as Hwf by (by vm_compute).
  assert (0 < size (final cache123)) as Hpos by (by vm_compute).
  split; [exact Hwf|]. split; [exact Hpos|].
  exact (proj1 (Set_then_Get 0 (final cache123) 2 9 1000 2000 Hwf Hpos)).
Defined.

Lemma set_new_key_witness :
  wf (final cache123) = true ∧ 0 < size (final cache123)
  ∧ Contains 4 (final cache123) = false
  ∧ ∃ l', set 4 4 zeroTime (final cache123) = Ok (tt, l')
          ∧ wf l' = true
          ∧ entries l' = (4, 4, Some zeroTime) ::
              (if bool_decide (size (final cache123) ≤ length (final cache123))
               then removelast (entries (final cache123))
               else entries (final cache123))
          ∧ size l' = size (final cache123)
          ∧ (length (final cache123) ≤ size (final cache123) → length l' ≤ size l').
Proof.
  split; [by vm_compute|]. split; [by vm_compute|]. split; [by vm_compute|].
  apply (set_new_key (final cache123) 4 4 zeroTime); by vm_compute.
Defined.

Lemma Del_keeps_others_witness :
  wf (final cache123) = true ∧ Contains 2 (final cache123) = true
  ∧ ∃ l' es1 e es2,
      Del 2 (final cache123) = Ok (true, l')
      ∧ entries (final cache123) = es1 ++ e :: es2 ∧ e.1.1 = 2
      ∧ entries l' = es1 ++ es2
      ∧ wf l' = true ∧ size l' = size (final cache123)
      ∧ withExpiry l' = withExpiry (final cache123).
Proof.
  split; [by vm_compute|]. split; [by vm_compute|].
  apply (Del_keeps_others (final cache123) 2); by vm_compute.
Defined.

Lemma Del_then_Get_witness :
  wf (final cache123) = true ∧ Contains 2 (final cache123) = true
  ∧ ∃ l', Del 2 (final cache123) = Ok (true, l')
          ∧ Get 0 2 l' = Ok ((0, false), l')
          ∧ Del 2 l' = Ok (false, l').
Proof.
  split; [by vm_compute|]. split; [by vm_compute|].
  apply (Del_then_Get 0 (final cache123) 2); by vm_compute.
Defined.

Lemma Get_only_relinks_witness :
  wf (final cache123) = true
  ∧ ∃ r l', Get 0 2 (final cache123) = Ok (r, l')
            ∧ r.2 = Contains 2 (final cache123)
            ∧ (∀ v d, (2, v, d) ∈ entries (final cache123) → r.1 = v)
            ∧ (Contains 2 (final cache123) = false → r.1 = 0 ∧ l' = final cache123)
            ∧ cacheMap l' = cacheMap (final cache123)
            ∧ length l' = length (final cache123)
            ∧ size l' = size (final cache123)
            ∧ withExpiry l' = withExpiry (final cache123)
            ∧ same_items (mem (final cache123)) (mem l').
Proof.
  split; [by vm_compute|].
  apply (Get_only_relinks 0 (final cache123) 2). by vm_compute.
Defined.

Lemma Get_first_witness :
  wf (final cache123) = true
  ∧ hd_error (entries (final cache123)) = Some (3, 3, Some 0)
  ∧ Get 0 3 (final cache123) = Ok ((3, true), final cache123).
Proof.
  split; [by vm_compute|]. split; [by vm_compute|].
  apply (Get_first 0 (final cache123) 3 3 (Some 0)); by vm_compute.
Defined.

Lemma Get_last_witness :
  wf (final cache123) = true
  ∧ entries (final cache123) = [(3, 3, Some 0); (2, 2, Some 0)] ++ [(1, 1, Some 0)]
  ∧ ∃ l', Get 0 1 (final cache123) = Ok ((1, true), l')
          ∧ wf l' = true
          ∧ entries l' = (1, 1, Some 0) :: [(3, 3, Some 0); (2, 2, Some 0)].
Proof.
  split; [by vm_compute|]. split; [by vm_compute|].
  apply (Get_last 0 (final cache123) 1 1 (Some 0) [(3, 3, Some 0); (2, 2, Some 0)]);
    by vm_compute.
Defined.

Lemma SetWithExpiry_then_tick_witness :
  wf (final ttl123) = true ∧ withExpiry (final ttl123) = true
  ∧ 0 < size (final ttl123) ∧ Contains 7 (final ttl123) = false
  ∧ -9223372036854 ≤ 2000 ≤ 9223372036854
  ∧ ∃ l1 l2, SetWithExpiry 1000 7 7 2000 (final ttl123) = Ok (tt, l1)
             ∧ hd_error (entries l1) = Some (7, 7, Some (1000 + 2000 * 1000000))
             ∧ tick (S (Datatypes.length (entries (final ttl123)))) (λ _, 1500) l1
               = Ok (tt, l2)
             ∧ Contains 7 l2 = bool_decide (1500 ≤ 1000 + 2000 * 1000000).
Proof.
  split; [by vm_compute|]. split; [by vm_compute|]. split; [by vm_compute|].
  split; [by vm_compute|]. split; [lia|].
  apply (SetWithExpiry_then_tick (final ttl123) 7 7 1000 2000 1500);
    try (by vm_compute); lia.
Defined.

Lemma SetWithExpiry_ttl_overflow_witness :
  wf (final ttl123) = true ∧ withExpiry (final ttl123) = true
  ∧ 0 < size (final ttl123) ∧ Contains 7 (final ttl123) = false
  ∧ 9223372036855 ≤ 9223372036855 ≤ 18446744073709 ∧ 1000 ≤ 1000
  ∧ ∃ l1 l2 d, SetWithExpiry 1000 7 7 9223372036855 (final ttl123) = Ok (tt, l1)
               ∧ hd_error (entries l1) = Some (7, 7, Some d) ∧ d < 1000
               ∧ tick (S (Datatypes.length (entries (final ttl123)))) (λ _, 1000) l1
                 = Ok (tt, l2)
               ∧ Contains 7 l2 = false.
Proof.
  split; [by vm_compute|]. split; [by vm_compute|]. split; [by vm_compute|].
  split; [by vm_compute|]. split; [lia|]. split; [lia|].
  apply (SetWithExpiry_ttl_overflow (final ttl123) 7 7 1000 9223372036855 1000);
    try (by vm_compute); lia.
Defined.

Lemma gentle_calls_keep_invariant_witness :
  wf (NewWithExpiry 3 : lruZ) = true ∧ 0 < size (NewWithExpiry 3 : lruZ)
  ∧ length (NewWithExpiry 3 : lruZ) ≤ size (NewWithExpiry 3 : lruZ)
  ∧ all_gentle 0
      [CSet 1 1; CSet 2 2; CSet 3 3; CGet 1; CSet 4 4; CDel 3; CGet 9;
       CSetWithExpiry 1000 5 5 2000; CTick 1500; CGet 5]
      (NewWithExpiry 3 : lruZ) = true
  ∧ ∃ l', do_calls 0
            [CSet 1 1; CSet 2 2; CSet 3 3; CGet 1; CSet 4 4; CDel 3; CGet 9;
             CSetWithExpiry 1000 5 5 2000; CTick 1500; CGet 5]
            (NewWithExpiry 3 : lruZ) = Ok l'
          ∧ wf l' = true ∧ size l' = size (NewWithExpiry 3 : lruZ)
          ∧ length l' ≤ size l'.
Proof.
  split; [by vm_compute|]. split; [by vm_compute|]. split; [by vm_compute|].
  split; [by vm_compute|].
  apply (gentle_calls_keep_invariant 0); by vm_compute.
Defined.

Lemma set_resident_breaks_links_witness :
  wf (final cache123) = true ∧ Contains 3 (final cache123) = true
  ∧ ∃ l', set 3 8 zeroTime (final cache123) = Ok (tt, l')
          ∧ wf l' = false
          ∧ cacheMap l' = cacheMap (final cache123)
          ∧ length l' = length (final cache123).
Proof.
  split; [by vm_compute|]. split; [by vm_compute|].
  apply (set_resident_breaks_links (final cache123) 3 8 zeroTime); by vm_compute.
Defined.

Lemma Get_middle_breaks_links_witness :
  wf (final cache123) = true
  ∧ entries (final cache123) = [(3, 3, Some 0)] ++ (2, 2, Some 0) :: [(1, 1, Some 0)]
  ∧ ∃ l', Get 0 2 (final cache123) = Ok ((2, true), l') ∧ wf l' = false.
Proof.
  split; [by vm_compute|]. split; [by vm_compute|].
  apply (Get_middle_breaks_links 0 (final cache123) 2 2 (Some 0)
           [(3, 3, Some 0)] [(1, 1, Some 0)]); by vm_compute.
Defined.

Lemma listAll_is_the_resident_map_witness :
  wf (final cache123) = true ∧ entries (final cache123) ≠ []
  ∧ (Datatypes.length (entries (final cache123)) ≤ 3)%nat
  ∧ (∃ out : gmap Z Z,
       listAll 2 (head (final cache123)) (final cache123) = Ok (out, final cache123)
       ∧ ∀ k v, out !! k = Some v ↔ ∃ d, (k, v, d) ∈ entries (final cache123))
  ∧ listAll 2 None (final cache123) = Panic.
Proof.
  assert (Datatypes.length (entries (final cache123)) ≤ 3)%nat as Hlen.
  { vm_compute. lia. }
  split; [by vm_compute|]. split; [by vm_compute|]. split; [exact Hlen|].
  apply (listAll_is_the_resident_map (final cache123) 2);
    [by vm_compute|by vm_compute|exact Hlen].
Defined.

Lemma tick_nothing_expired_witness :
  wf (final ttl123) = true
  ∧ (∀ e, e ∈ entries (final ttl123) → expired 1500 e = false)
  ∧ (Datatypes.length (entries (final ttl123)) ≤ 3)%nat
  ∧ tick 3 (λ _, 1500) (final ttl123) = Ok (tt, final ttl123).
Proof.
  assert (∀ e, e ∈ entries (final ttl123) → expired 1500 e = false) as Hfresh.
  { assert (forallb (λ e, negb (expired 1500 e)) (entries (final ttl123)) = true)
      as Hall by (by vm_compute).
    intros e He. apply (forallb_elem_of _ _ _ Hall) in He.
    by apply negb_true_iff in He. }
  assert (Datatypes.length (entries (final ttl123)) ≤ 3)%nat as Hlen.
  { vm_compute. lia. }
  split; [by vm_compute|]. split; [exact Hfresh|]. split; [exact Hlen|].
  apply (tick_nothing_expired (final ttl123) 1500 3);
    [by vm_compute|exact Hfresh|exact Hlen].
Defined.

Lemma Sub_only_item_panics_witness :
  cacheMap (final sub_one) !! 1 = Some 0%nat
  ∧ mem (final sub_one) !! 0%nat = Some (mkCache 1 1 None None None)
  ∧ Sub.Del 1 (final sub_one) = Panic ∧ Sub.Set_ 1 5 (final sub_one) = Panic.
Proof.
  split; [by vm_compute|]. split; [by vm_compute|].
  apply (Sub_only_item_panics (final sub_one) 1 5 0%nat (mkCache 1 1 None None None));
    by vm_compute.
Defined.

Lemma Sub_Set_full_with_one_item_panics_witness :
  cacheMap (final sub_one) !! 2 = None
  ∧ size (final sub_one) ≤ length (final sub_one)
  ∧ tail (final sub_one) = Some 0%nat
  ∧ Sub.Set_ 2 2 (final sub_one) = Panic.
Proof.
  split; [by vm_compute|]. split; [by vm_compute|]. split; [by vm_compute|].
  apply (Sub_Set_full_with_one_item_panics (final sub_one) 2 2 0%nat
           (mkCache 1 1 None None None)); by vm_compute.
Defined.

Lemma Sub_del_agrees_witness :
  (∀ p c, cacheMap (final sub_123) !! 2 = Some p →
          mem (final sub_123) !! p = Some c → prev c ≠ None ∨ next c ≠ None)
  ∧ Sub.del 2 (final sub_123) = del 2 (final sub_123).
Proof.
  assert (∀ p c, cacheMap (final sub_123) !! 2 = Some p →
                 mem (final sub_123) !! p = Some c →
                 prev c ≠ None ∨ next c ≠ None) as Hnb.
  { assert (cacheMap (final sub_123) !! 2 = Some 1%nat) as Hk by (by vm_compute).
    assert (prev <$> mem (final sub_123) !! 1%nat = Some (Some 2%nat)) as Hm
      by (by vm_compute).
    intros p c Hp Hc. rewrite Hk in Hp. injection Hp as <-.
    rewrite Hc in Hm. cbn in Hm. injection Hm as Hm. left. by rewrite Hm. }
  split; [exact Hnb|]. apply (Sub_del_agrees (final sub_123) 2 Hnb).
Defined.

Lemma Sub_ListAll_spec_witness :
  walk 4 (mem (final sub_123)) (head (final sub_123)) = Some [2; 1; 0]%nat
  ∧ (Datatypes.length [2; 1; 0]%nat ≤ 3)%nat
  ∧ Sub.ListAll 2 (final sub_123)
    = Ok (foldl (λ o e, <[e.1.1 := e.1.2]> o) ∅
            (omap (λ q, item_data <$> mem (final sub_123) !! q) [2; 1; 0]%nat),
          final sub_123).
Proof.
  split; [by vm_compute|]. split; [cbn; lia|].
  apply (Sub_ListAll_spec (final sub_123) 4 2 [2; 1; 0]%nat);
    [by vm_compute|cbn; lia|done].
Defined.
